(** * dkm: k-means (Lloyd's algorithm with k-means++ seeding)

    A shallow embedding of [include/dkm.hpp] and the properties of its
    functions.  The C++ code is a template over the scalar type [T] and the
    dimension [N]; the embedding is a development over a type class of scalar
    operations and a section variable [N]. *)

From stdpp Require Import base list numbers.
From Stdlib Require Import ZArith QArith Lia.

Open Scope Z_scope.

(** ** The scalar type [T]

    [kmeans_lloyd] requires [T] to be a signed arithmetic type.  The class
    lists the operations the code applies to values of type [T], each with
    the C++ expression it stands for.  [float] is the type of [epsilon] and
    of the value returned by [point_collection_epsilon]. *)

Class Scalar (T : Type) := {
  s_zero : T;                    (* T()                                   *)
  s_one : T;                     (* the literal 1 in  count[c] += 1       *)
  s_add : T → T → T;             (* x + y, x += y                         *)
  s_sub : T → T → T;             (* x - y                                 *)
  s_mul : T → T → T;             (* x * y                                 *)
  s_div : T → T → T;             (* x /= y   with y of type T             *)
  s_lt : T → T → bool;           (* x < y                                 *)
  s_is_zero : T → bool;          (* x == 0                                *)
  s_div_size : T → Z → T;        (* x /= n   with n of type size_t        *)
  s_sqrt : T → T;                (* std::sqrt(x) converted back to T      *)
  float : Type;
  float_zero : float;            (* 0.0f, the default of epsilon          *)
  to_float : T → float;          (* float d = x                           *)
  float_gt : float → float → bool (* d > epsilon                          *)
}.

(** ** Outcomes

    A call returns a value, stops at a failed [assert], or subscripts a
    vector past its end (undefined behaviour in C++, kept as an outcome of
    its own).  [OutOfFuel] belongs to the model only: the [do-while] loop of
    the driver is unrolled over a fuel argument. *)

Inductive assertion :=
| Assert_k_positive          (* assert(k > 0)                          *)
| Assert_maxIter_positive    (* assert(maxIter > 0)                    *)
| Assert_enough_data         (* assert(data.size() >= k)               *)
| Assert_means_nonempty      (* assert(!means.empty())                 *)
| Assert_same_size.          (* assert(point_a.size() == point_b.size()) *)

Inductive outcome (A : Type) :=
| Ret (a : A)
| AssertionFailed (a : assertion)
| OutOfBounds
| OutOfFuel.

Arguments Ret {A} a.
Arguments AssertionFailed {A} a.
Arguments OutOfBounds {A}.
Arguments OutOfFuel {A}.

Definition outcome_bind {A B} (f : A → outcome B) (o : outcome A) : outcome B :=
  match o with
  | Ret a => f a
  | AssertionFailed a => AssertionFailed a
  | OutOfBounds => OutOfBounds
  | OutOfFuel => OutOfFuel
  end.

#[global] Instance outcome_mret : MRet outcome := @Ret.
#[global] Instance outcome_mbind : MBind outcome := @outcome_bind.

(* a loop that pushes one result per element *)
Fixpoint for_each {A B} (f : A → outcome B) (l : list A) : outcome (list B) :=
  match l with
  | [] => Ret []
  | x :: l' => y ← f x; ys ← for_each f l'; Ret (y :: ys)
  end.

(** The driver and the initializer are followed through a trace of the
    passes they perform and of the random draws they make. *)

Inductive event :=
| RandomDevice     (* rand_device()                                     *)
| UniformDraw      (* uniform_generator(rand_engine)                    *)
| WeightedDraw     (* generator(rand_engine), the discrete distribution *)
| AssignPass       (* calculate_clusters                                *)
| UpdatePass       (* calculate_means                                   *)
| ConvergenceCheck. (* point_collection_epsilon                         *)

Definition traced (A : Type) : Type := outcome A * list event.

Definition traced_bind {A B} (f : A → traced B) (m : traced A) : traced B :=
  let '(o, trace) := m in
  match o with
  | Ret a => let '(o', trace') := f a in (o', trace ++ trace')
  | AssertionFailed a => (AssertionFailed a, trace)
  | OutOfBounds => (OutOfBounds, trace)
  | OutOfFuel => (OutOfFuel, trace)
  end.

#[global] Instance traced_mret : MRet traced := λ A a, (Ret a, []).
#[global] Instance traced_mbind : MBind traced := @traced_bind.

Definition lift {A} (o : outcome A) : traced A := (o, []).
Definition tell (e : event) : traced unit := (Ret tt, [e]).
Definition cassert (a : assertion) (b : bool) : traced unit :=
  if b then (Ret tt, []) else (AssertionFailed a, []).

(** ** Integer conversions *)

(* size_t to uint32_t *)
Definition to_uint32 (n : nat) : nat := Z.to_nat (Z.of_nat n mod 2 ^ 32).
(* unsigned int or uint64_t to int *)
Definition to_int (z : Z) : Z := (z + 2 ^ 31) mod 2 ^ 32 - 2 ^ 31.
(* int or size_t arithmetic to uint64_t *)
Definition to_uint64 (z : Z) : Z := z mod 2 ^ 64.

(** ** The random engine

    [std::linear_congruential_engine<uint64_t, a, c, UINT64_MAX>]: the
    standard fixes the recurrence and the seeding. *)

Definition lcg_a : Z := 6364136223846793005.
Definition lcg_c : Z := 1442695040888963407.
Definition lcg_m : Z := 2 ^ 64 - 1.          (* UINT64_MAX *)

Definition engine : Type := Z.

(* rand_engine(seed), the int seed converted to uint64_t *)
Definition engine_seed (seed : Z) : engine :=
  let s := to_uint64 seed in
  if decide (lcg_c mod lcg_m = 0 ∧ s mod lcg_m = 0) then 1 else s mod lcg_m.

(* rand_engine() *)
Definition engine_next (x : engine) : engine * Z :=
  let x' := (lcg_a * x + lcg_c) mod lcg_m in (x', x').

(** The algorithms of [std::uniform_int_distribution] and
    [std::discrete_distribution] are left to the implementation of the
    standard library.  Each takes the engine and returns the drawn index
    and the engine after the draw. *)
Class Distributions (T : Type) := {
  uniform_int_distribution : Z → Z → engine → Z * engine;
  discrete_distribution : list T → engine → Z * engine
}.

(* generator.probabilities().size(): an empty range of weights stands for
   the single weight 1 *)
Definition probabilities_size {T} (weights : list T) : Z :=
  match weights with
  | [] => 1
  | _ => Z.of_nat (length weights)
  end.

Section Kmeans.

Context {T : Type} `{Scalar T}.
Variable N : nat.

(** [std::array<T, N>] as the list of its elements.  The type fixes the
    length to [N]; every loop of the code runs over the indices below [N],
    and so do the definitions. *)
Local Abbreviation Point := (list T).

Definition coord (p : Point) (i : nat) : T := default s_zero (p !! i).

(** ** details::distance_squared *)
Definition distance_squared (point_a point_b : Point) : T :=
  fold_left
    (λ d_squared i,
       let delta := s_sub (coord point_a i) (coord point_b i) in
       s_add d_squared (s_mul delta delta))
    (seq 0 N) s_zero.

(** ** details::distance *)
Definition distance (point_a point_b : Point) : T :=
  s_sqrt (distance_squared point_a point_b).

(** ** details::closest_mean

    The loop over [i = 1 .. means.size() - 1], with [rest] the means from
    index [i] on. *)
Fixpoint closest_mean_loop (point : Point) (rest : list Point) (i : nat)
    (smallest_distance : T) (index : nat) : nat :=
  match rest with
  | [] => index
  | m :: rest' =>
      let distance := distance_squared point m in
      if s_lt distance smallest_distance
      then closest_mean_loop point rest' (S i) distance i
      else closest_mean_loop point rest' (S i) smallest_distance index
  end.

Definition closest_mean (point : Point) (means : list Point) : outcome nat :=
  match means with
  | [] => AssertionFailed Assert_means_nonempty
  | m0 :: rest =>
      Ret (to_uint32
             (closest_mean_loop point rest 1 (distance_squared point m0) 0))
  end.

(** ** details::calculate_clusters *)
Fixpoint calculate_clusters (data means : list Point) : outcome (list nat) :=
  match data with
  | [] => Ret []
  | point :: data' =>
      c ← closest_mean point means;
      clusters ← calculate_clusters data' means;
      Ret (c :: clusters)
  end.

(** The same loop on the state of the call: the dataset and the means, both
    passed by const reference, and the local vector of labels that
    [push_back] extends. *)
Record assign_state := {
  as_data : list Point;
  as_means : list Point;
  as_clusters : list nat
}.

Fixpoint calculate_clusters_loop (rest : list Point) (s : assign_state) :
    outcome assign_state :=
  match rest with
  | [] => Ret s
  | point :: rest' =>
      c ← closest_mean point (as_means s);
      calculate_clusters_loop rest'
        {| as_data := as_data s;
           as_means := as_means s;
           as_clusters := as_clusters s ++ [c] |}
  end.

Definition calculate_clusters_run (data means : list Point) : outcome assign_state :=
  calculate_clusters_loop data
    {| as_data := data; as_means := means; as_clusters := [] |}.

(** ** details::calculate_means *)

(* the inner loop  mean[j] += data[i][j]  *)
Definition accumulate (mean point : Point) : Point :=
  map (λ j, s_add (coord mean j) (coord point j)) (seq 0 N).

(* the first loop, over the overlapping prefix of clusters and data *)
Fixpoint sum_clusters (pairs : list (nat * Point))
    (means : list Point) (count : list T) : outcome (list Point * list T) :=
  match pairs with
  | [] => Ret (means, count)
  | (c, point) :: pairs' =>
      match means !! c, count !! c with
      | Some mean, Some n =>
          sum_clusters pairs'
            (<[c := accumulate mean point]> means) (<[c := s_add n s_one]> count)
      | _, _ => OutOfBounds
      end
  end.

(* one round of the second loop *)
Definition finish_mean (means : list Point) (count : list T)
    (old_means : list Point) (i : nat) : outcome Point :=
  match means !! i, count !! i with
  | Some mean, Some n =>
      if s_is_zero n then
        match old_means !! i with
        | Some old => Ret old
        | None => OutOfBounds
        end
      else Ret (map (λ j, s_div (coord mean j) n) (seq 0 N))
  | _, _ => OutOfBounds
  end.

Definition calculate_means (data : list Point) (clusters : list nat)
    (old_means : list Point) (k : nat) : outcome (list Point) :=
  let means := replicate k (replicate N s_zero) in
  let count := replicate k s_zero in
  '(means, count) ← sum_clusters (zip clusters data) means count;
  for_each (finish_mean means count old_means) (seq 0 k).

(** ** details::point_collection_epsilon

    [means_a] and [means_b] are declared without an initializer and are
    then accumulated into with [+=]; [uninit_a] and [uninit_b] are the
    indeterminate values the two arrays hold when the loops start. *)
Definition column_mean (uninit : Point) (points : list Point) (dim : nat) : T :=
  s_div_size
    (fold_left (λ acc p, s_add acc (coord p dim)) points (coord uninit dim))
    (Z.of_nat (length points)).

Definition point_collection_epsilon (uninit_a uninit_b : Point)
    (point_a point_b : list Point) : outcome float :=
  if decide (length point_a = length point_b) then
    let means_a := map (column_mean uninit_a point_a) (seq 0 N) in
    let means_b := map (column_mean uninit_b point_b) (seq 0 N) in
    Ret (to_float (distance means_a means_b))
  else AssertionFailed Assert_same_size.

(** ** details::closest_distance *)
Definition closest_distance (means data : list Point) (k : nat) :
    outcome (list T) :=
  for_each
    (λ d,
       match means with
       | [] => OutOfBounds
       | m0 :: _ =>
           Ret (fold_left
                  (λ closest m,
                     let distance := distance_squared d m in
                     if s_lt distance closest then distance else closest)
                  means (distance_squared d m0))
       end)
    data.

(** ** The environment of a call

    What a call reads besides its arguments: the value [std::random_device]
    returns, and the indeterminate contents of the two uninitialized arrays
    of [point_collection_epsilon] at its call in iteration [count]. *)
Record World := {
  rand_device : Z;
  uninitialized : Z → Point * Point
}.

Context `{Distributions T}.

(** ** details::random_plusplus *)

(* the loop  for (count = 1; count < k; ++count)  *)
Fixpoint random_plusplus_loop (rounds : nat) (data : list Point) (k : nat)
    (means : list Point) (rand_engine : engine) : traced (list Point) :=
  match rounds with
  | O => mret means
  | S rounds' =>
      distances ← lift (closest_distance means data k);
      let '(index, rand_engine) := discrete_distribution distances rand_engine in
      _ ← tell WeightedDraw;
      let index :=
        if decide (index = probabilities_size distances) then 0 else index in
      match data !! Z.to_nat index with
      | Some point => random_plusplus_loop rounds' data k (means ++ [point]) rand_engine
      | None => lift OutOfBounds
      end
  end.

Definition random_plusplus (w : World) (data : list Point) (k : nat)
    (defaultSeed : Z) : traced (list Point) :=
  _ ← cassert Assert_k_positive (bool_decide (0 < k)%nat);
  seed ← (if decide (defaultSeed = -1)
          then _ ← tell RandomDevice; mret (to_int (rand_device w))
          else mret defaultSeed);
  let rand_engine := engine_seed seed in
  let '(index, rand_engine) :=
    uniform_int_distribution 0 (to_uint64 (Z.of_nat (length data) - 1)) rand_engine in
  _ ← tell UniformDraw;
  match data !! Z.to_nat index with
  | Some point => random_plusplus_loop (k - 1) data k [point] rand_engine
  | None => lift OutOfBounds
  end.

(** ** kmeans_lloyd *)

(* the do-while loop; [count] is the counter on entry to the body *)
Fixpoint lloyd_loop (fuel : nat) (w : World) (data : list Point) (k : nat)
    (maxIter : Z) (epsilon : float) (means : list Point) (count : Z) :
    traced (list Point * list nat) :=
  match fuel with
  | O => lift OutOfFuel
  | S fuel' =>
      clusters ← lift (calculate_clusters data means);
      _ ← tell AssignPass;
      let old_means := means in
      means ← lift (calculate_means data clusters old_means k);
      _ ← tell UpdatePass;
      let count := count + 1 in
      let '(uninit_a, uninit_b) := uninitialized w count in
      d ← lift (point_collection_epsilon uninit_a uninit_b means old_means);
      _ ← tell ConvergenceCheck;
      if float_gt d epsilon && bool_decide (count < maxIter)
      then lloyd_loop fuel' w data k maxIter epsilon means count
      else mret (means, clusters)
  end.

Definition kmeans_lloyd (w : World) (data : list Point) (k : nat)
    (maxIter : Z) (seed : Z) (epsilon : float) :
    traced (list Point * list nat) :=
  _ ← cassert Assert_k_positive (bool_decide (0 < k)%nat);
  _ ← cassert Assert_maxIter_positive (bool_decide (0 < maxIter));
  _ ← cassert Assert_enough_data (bool_decide (k ≤ length data)%nat);
  means ← random_plusplus w data k seed;
  lloyd_loop (Z.to_nat maxIter) w data k maxIter epsilon means 0.

(* the call interface: seed and epsilon may be left out, and then take
   their default arguments  seed = -1  and  epsilon = 0.0f  *)
Definition kmeans_lloyd_call (w : World) (data : list Point) (k : nat)
    (maxIter : Z) (seed : option Z) (epsilon : option float) :
    traced (list Point * list nat) :=
  kmeans_lloyd w data k maxIter (default (-1) seed) (default float_zero epsilon).

End Kmeans.

Arguments World T : clear implicits.
Arguments assign_state T : clear implicits.

(** ** Two instances for [T = int]

    [int_scalar] takes [int] values as mathematical integers: sums,
    differences and products never wrap.  It agrees with the compiled code
    on the executions in which no intermediate result leaves the range of
    [int], as in the examples of this file, and not beyond; it serves to
    give the hypotheses of the generic theorems an instance.  [x /= n] with
    [n] a [size_t] converts [x] to [unsigned long], divides, and converts
    back; [std::sqrt] of an [int] returned as [int] is the integer square
    root.  [float] values are rationals.  A division by zero traps in the
    code and is not modelled: the quotient is then 0. *)
#[global] Instance int_scalar : Scalar Z := {
  s_zero := 0;
  s_one := 1;
  s_add := Z.add;
  s_sub := Z.sub;
  s_mul := Z.mul;
  s_div := Z.quot;
  s_lt := Z.ltb;
  s_is_zero := Z.eqb 0;
  s_div_size := λ x n, to_int (to_uint64 x / n);
  s_sqrt := Z.sqrt;
  float := Q;
  float_zero := 0%Q;
  to_float := inject_Z;
  float_gt := λ x y, negb (Qle_bool x y)
}.

(** [int32_scalar] is the 32-bit two's complement [int] of the compiled
    code: every sum, difference, product and quotient is reduced to the
    range of [int] by [to_int], so that [46341 * 46341] is [-2147479015].
    (Signed overflow is undefined in C++; the wrap is what the machine
    computes.)  A division by zero traps in the code and is not modelled;
    [std::sqrt] is taken on non-negative values only.  The instance is
    passed explicitly where it is meant. *)
Definition int32_scalar : Scalar Z := {|
  s_zero := 0;
  s_one := 1;
  s_add := λ x y, to_int (x + y);
  s_sub := λ x y, to_int (x - y);
  s_mul := λ x y, to_int (x * y);
  s_div := λ x y, to_int (Z.quot x y);
  s_lt := Z.ltb;
  s_is_zero := Z.eqb 0;
  s_div_size := λ x n, to_int (to_uint64 x / n);
  s_sqrt := Z.sqrt;
  float := Q;
  float_zero := 0%Q;
  to_float := inject_Z;
  float_gt := λ x y, negb (Qle_bool x y)
|}.

(** Stand-in distributions.  The algorithms of the standard library are not
    part of the source and differ between implementations; these two are
    not the algorithms of any of them.  They draw one engine value per
    sample: the uniform one reduces it to the range, the weighted one
    scans the cumulative weights and answers the number of weights when
    they sum to zero.  They answer within the ranges that the generic
    theorems assume, and give these assumptions an instance. *)
Fixpoint cumulative_scan (weights : list Z) (r : Z) (i : Z) : Z :=
  match weights with
  | [] => i
  | w :: weights' =>
      if bool_decide (r < Z.max 0 w) then i
      else cumulative_scan weights' (r - Z.max 0 w) (i + 1)
  end.

#[global] Instance scan_distributions : Distributions Z := {
  uniform_int_distribution := λ a b g,
    let '(g, r) := engine_next g in (a + r mod (b - a + 1), g);
  discrete_distribution := λ weights g,
    let '(g, r) := engine_next g in
    let total := foldr Z.add 0 (Z.max 0 <$> weights) in
    if decide (total = 0) then (probabilities_size weights, g)
    else (cumulative_scan weights (r mod total) 0, g)
}.

(** Two environments: in the first the arrays of the convergence check
    happen to hold zeros, in the second the first holds 2 and the other 0.
    A third differs from the first in the value of the random device. *)
Definition zero_world : World Z :=
  {| rand_device := 0; uninitialized := λ _, ([0], [0]) |}.

Definition stale_world : World Z :=
  {| rand_device := 0; uninitialized := λ _, ([2], [0]) |}.

Definition other_entropy_world : World Z :=
  {| rand_device := 1; uninitialized := λ _, ([0], [0]) |}.

Definition line_data : list (list Z) := [[0]; [2]; [3]; [4]].

(** ** Specification predicates *)

Section Specs.

Context {T : Type} `{Scalar T}.
Variable N : nat.
Local Abbreviation Point := (list T).

(** No mean is strictly closer to [point] than the mean at [index]. *)
Definition minimal_distance (point : Point) (means : list Point) (index : nat) : Prop :=
  ∃ m, means !! index = Some m ∧
    ∀ j m', means !! j = Some m' →
      s_lt (distance_squared N point m') (distance_squared N point m) = false.

(** [index] is the nearest mean, and the first of the nearest ones. *)
Definition nearest_first (point : Point) (means : list Point) (index : nat) : Prop :=
  minimal_distance point means index ∧
  ∀ j, minimal_distance point means j → (index ≤ j)%nat.

(** The squared Euclidean distance, stated apart from the code: the squared
    differences of the [N] components, summed in the order of the
    components. *)
Definition squared_euclidean (a b : Point) : T :=
  fold_left s_add
    (map (λ j, s_mul (s_sub (coord a j) (coord b j)) (s_sub (coord a j) (coord b j)))
       (seq 0 N))
    s_zero.

(** No mean is at a strictly smaller squared Euclidean distance from
    [point] than the mean at [index]. *)
Definition no_mean_closer (point : Point) (means : list Point) (index : nat) : Prop :=
  ∃ m, means !! index = Some m ∧
    ∀ j m', means !! j = Some m' →
      s_lt (squared_euclidean point m') (squared_euclidean point m) = false.

(** [index] is the lowest index of a mean at minimal distance. *)
Definition first_of_nearest (point : Point) (means : list Point) (index : nat) : Prop :=
  no_mean_closer point means index ∧
  ∀ j, no_mean_closer point means j → (index ≤ j)%nat.

(** The comparison [<] orders the distances from [point] to the means: on
    these values, and on no others, it is irreflexive and transitive and so
    is its complement.  (For floating point this excludes a NaN among
    them.) *)
Definition distances_ordered (point : Point) (means : list Point) : Prop :=
  (∀ m, m ∈ means →
     s_lt (squared_euclidean point m) (squared_euclidean point m) = false) ∧
  (∀ m1 m2 m3, m1 ∈ means → m2 ∈ means → m3 ∈ means →
     s_lt (squared_euclidean point m1) (squared_euclidean point m2) = true →
     s_lt (squared_euclidean point m2) (squared_euclidean point m3) = true →
     s_lt (squared_euclidean point m1) (squared_euclidean point m3) = true) ∧
  (∀ m1 m2 m3, m1 ∈ means → m2 ∈ means → m3 ∈ means →
     s_lt (squared_euclidean point m1) (squared_euclidean point m2) = false →
     s_lt (squared_euclidean point m2) (squared_euclidean point m3) = false →
     s_lt (squared_euclidean point m1) (squared_euclidean point m3) = false).

(** The points labelled [c], in dataset order; only the positions that have
    both a label and a point count. *)
Definition assigned_points (clusters : list nat) (data : list Point) (c : nat) :
    list Point :=
  (filter (λ cp, cp.1 = c) (zip clusters data)).*2.

Definition component_sum (points : list Point) (j : nat) : T :=
  fold_left (λ acc p, s_add acc (coord p j)) points s_zero.

Definition point_count (points : list Point) : T :=
  fold_left (λ n _, s_add n s_one) points s_zero.

(** The per-component arithmetic average of [points]. *)
Definition average (points : list Point) : Point :=
  map (λ j, s_div (component_sum points j) (point_count points)) (seq 0 N).

(** The centroid of a set of means: its component-wise average. *)
Definition centroid (means : list Point) : Point :=
  map (λ dim, s_div_size (component_sum means dim) (Z.of_nat (length means)))
    (seq 0 N).

(** The mean-shift scalar: the Euclidean distance between the centroids of
    two sets of means. *)
Definition mean_shift (means_1 means_2 : list Point) : float :=
  to_float (distance N (centroid means_1) (centroid means_2)).

(** Every position that has a label and a point has a label below [k]. *)
Definition labels_in_range (k : nat) (clusters : list nat) (data : list Point) : Prop :=
  ∀ i c (p : Point), clusters !! i = Some c → data !! i = Some p → (c < k)%nat.

(** The invariant of the loop of [closest_mean]: [index] is the answer for
    the means seen so far and [smallest_distance] is its distance. *)
Definition seen_nearest (point : Point) (seen : list Point)
    (smallest_distance : T) (index : nat) : Prop :=
  ∃ m, seen !! index = Some m ∧
    smallest_distance = distance_squared N point m ∧
    (∀ j m', seen !! j = Some m' →
       s_lt (distance_squared N point m') smallest_distance = false) ∧
    (∀ j m', (j < index)%nat → seen !! j = Some m' →
       s_lt smallest_distance (distance_squared N point m') = true).

(** What the second loop of [calculate_means] leaves at an index, from the
    points assigned to it. *)
Definition updated_mean (old : Point) (points : list Point) : Point :=
  if s_is_zero (point_count points) then old else average points.

(** The events of one round of the driver's loop. *)
Definition pass_events : list event := [AssignPass; UpdatePass; ConvergenceCheck].

(** One round of Lloyd's algorithm on the means alone, and [n] rounds. *)
Definition lloyd_update (data : list Point) (k : nat) (means : list Point) :
    outcome (list Point) :=
  clusters ← calculate_clusters N data means;
  calculate_means N data clusters means k.

Fixpoint lloyd_updates (n : nat) (data : list Point) (k : nat)
    (means : list Point) : outcome (list Point) :=
  match n with
  | O => Ret means
  | S n' => means' ← lloyd_update data k means; lloyd_updates n' data k means'
  end.

(** The pair returned after [n] full rounds and a last one: [prev] is the
    set of means after [n] rounds from [means0], the labels are computed
    against [prev], and the means are the update of [prev] by these labels. *)
Definition returned_after (data : list Point) (k : nat) (means0 : list Point)
    (n : nat) (means : list Point) (clusters : list nat) : Prop :=
  ∃ prev,
    lloyd_updates n data k means0 = Ret prev ∧
    length prev = k ∧
    calculate_clusters N data prev = Ret clusters ∧
    calculate_means N data clusters prev k = Ret means.

Context `{Distributions T}.

(** The engine as the initializer seeds it, and the events of the seeding. *)
Definition seeded_engine (w : World T) (defaultSeed : Z) : engine :=
  engine_seed (if decide (defaultSeed = -1) then to_int (rand_device w) else defaultSeed).

Definition seed_events (defaultSeed : Z) : list event :=
  if decide (defaultSeed = -1) then [RandomDevice] else [].

(** The body of the initializer after the assertion and the seeding. *)
Definition draw_means (data : list Point) (k : nat) (rand_engine : engine) :
    traced (list Point) :=
  let '(index, rand_engine) :=
    uniform_int_distribution 0 (to_uint64 (Z.of_nat (length data) - 1)) rand_engine in
  _ ← tell UniformDraw;
  match data !! Z.to_nat index with
  | Some point => random_plusplus_loop N (k - 1) data k [point] rand_engine
  | None => lift OutOfBounds
  end.

End Specs.

(** Bounds under which the 32-bit arithmetic of [distance_squared] does not
    wrap: the [N] components of a point lie within [B] of zero, and [N]
    squared differences of such components fit in an [int]. *)
Definition coords_within (N : nat) (B : Z) (p : list Z) : Prop :=
  ∀ j, (j < N)%nat → - B ≤ default 0 (p !! j) ≤ B.

Definition squares_fit (N : nat) (B : Z) : Prop :=
  0 ≤ B ∧ 4 * B * B * Z.of_nat N ≤ 2 ^ 31 - 1.

(** ** Properties *)

Section Properties.

Context {T : Type} `{Scalar T} `{Distributions T}.
Variable N : nat.
Local Abbreviation Point := (list T).
Local Abbreviation World := (World T).

(** *** The two monads *)

Lemma traced_bind_ret {A B} (f : A → traced B) (a : A) (tr : list event) :
  ((Ret a, tr) ≫= f) = ((f a).1, tr ++ (f a).2).
Proof.
  unfold mbind, traced_mbind, traced_bind. by destruct (f a).
Qed.

Lemma for_each_length {A B} (f : A → outcome B) (l : list A) (r : list B) :
  for_each f l = Ret r → length r = length l.
Proof.
  revert r. induction l as [|x l IH]; intros r; simpl.
  - intros [= <-]. reflexivity.
  - destruct (f x) as [y| | |]; simpl; try discriminate.
    destruct (for_each f l) as [ys| | |]; simpl; try discriminate.
    intros [= <-]. simpl. f_equal. by apply IH.
Qed.

Lemma for_each_lookup {A B} (f : A → outcome B) (l : list A) (r : list B) i x :
  for_each f l = Ret r → l !! i = Some x → ∃ y, r !! i = Some y ∧ f x = Ret y.
Proof.
  revert r i. induction l as [|x' l IH]; intros r i; simpl; [done|].
  destruct (f x') as [y| | |] eqn:Hfx; simpl; try discriminate.
  destruct (for_each f l) as [ys| | |]; simpl; try discriminate.
  intros [= <-]. destruct i as [|i]; simpl.
  - intros [= <-]. eauto.
  - intros Hl. by eapply IH.
Qed.

Lemma for_each_total {A B} (f : A → outcome B) (l : list A) :
  (∀ x, x ∈ l → ∃ y, f x = Ret y) → ∃ r, for_each f l = Ret r.
Proof.
  induction l as [|x l IH]; intros Hf; simpl; [eauto|].
  destruct (Hf x) as [y ->]; [left|]. simpl.
  destruct IH as [r ->]; [intros; apply Hf; by right|]. simpl. eauto.
Qed.

Lemma traced_bind_run {A B} (f : A → traced B) (m : traced A) a tr o tr' :
  m = (Ret a, tr) → f a = (o, tr') → (m ≫= f) = (o, tr ++ tr').
Proof. intros -> Hf. rewrite traced_bind_ret, Hf. reflexivity. Qed.

Lemma traced_bind_lift {A B} (f : A → traced B) (a : A) :
  (lift (Ret a) ≫= f) = f a.
Proof. unfold lift. rewrite traced_bind_ret. by destruct (f a). Qed.

Lemma traced_bind_tell {B} (f : unit → traced B) (e : event) :
  (tell e ≫= f) = ((f tt).1, e :: (f tt).2).
Proof. unfold tell. by rewrite traced_bind_ret. Qed.

Lemma traced_bind_outcome {A B} (f : A → traced B) (m : traced A) (a : A) :
  m.1 = Ret a → (m ≫= f).1 = (f a).1.
Proof.
  destruct m as [o tr]. intros Ho. cbn [fst] in Ho. subst o.
  by rewrite traced_bind_ret.
Qed.

Lemma traced_bind_ext {A B} (f g : A → traced B) (m : traced A) :
  (∀ a, f a = g a) → (m ≫= f) = (m ≫= g).
Proof.
  intros Hfg. destruct m as [[a| | |] tr]; [|done..].
  by rewrite !traced_bind_ret, Hfg.
Qed.

(** *** Integer conversions *)

Lemma to_uint32_le n : (to_uint32 n ≤ n)%nat.
Proof.
  unfold to_uint32.
  pose proof (Z.mod_le (Z.of_nat n) (2 ^ 32)) as Hle.
  pose proof (Z.mod_pos_bound (Z.of_nat n) (2 ^ 32)) as Hpos. lia.
Qed.

Lemma to_uint32_small n : Z.of_nat n < 2 ^ 32 → to_uint32 n = n.
Proof. intros Hn. unfold to_uint32. rewrite Z.mod_small by lia. lia. Qed.

(** *** closest_mean and calculate_clusters: range of the labels *)

Lemma closest_mean_loop_bound point rest :
  ∀ i smallest index,
    (index < i)%nat →
    (closest_mean_loop N point rest i smallest index < i + length rest)%nat.
Proof.
  induction rest as [|m rest IH]; intros i smallest index Hi; simpl; [lia|].
  destruct (s_lt _ _).
  - specialize (IH (S i) (distance_squared N point m) i). lia.
  - specialize (IH (S i) smallest index). lia.
Qed.

Lemma closest_mean_bound point means :
  means ≠ [] →
  ∃ c, closest_mean N point means = Ret c ∧ (c < length means)%nat.
Proof.
  destruct means as [|m0 rest]; [done|]. intros _. simpl.
  eexists. split; [reflexivity|].
  pose proof (to_uint32_le
    (closest_mean_loop N point rest 1 (distance_squared N point m0) 0)) as Hle.
  pose proof (closest_mean_loop_bound point rest 1
    (distance_squared N point m0) 0%nat) as Hlt. lia.
Qed.

Lemma calculate_clusters_spec data means :
  means ≠ [] →
  ∃ clusters,
    calculate_clusters N data means = Ret clusters ∧
    length clusters = length data ∧
    Forall (λ c, c < length means)%nat clusters ∧
    ∀ i point, data !! i = Some point →
      ∃ c, clusters !! i = Some c ∧ closest_mean N point means = Ret c.
Proof.
  intros Hne. induction data as [|point data IH]; simpl.
  - exists []. repeat split; [constructor|]. intros i p Hi. done.
  - destruct (closest_mean_bound point means Hne) as (c & Hc & Hlt).
    destruct IH as (clusters & Hcl & Hlen & Hall & Hlook).
    rewrite Hc, Hcl. simpl. exists (c :: clusters).
    repeat split; [simpl; lia|by constructor|].
    intros [|i] p; simpl.
    + intros [= <-]. eauto.
    + apply Hlook.
Qed.

(** *** calculate_means *)

Lemma coord_map_seq (f : nat → T) j :
  (j < N)%nat → coord (map f (seq 0 N)) j = f j.
Proof.
  intros Hj. unfold coord.
  change (map f (seq 0 N)) with (f <$> seq 0 N).
  rewrite list_lookup_fmap, lookup_seq_lt by done. reflexivity.
Qed.

Lemma coord_fold_accumulate points : ∀ mean j,
  (j < N)%nat →
  coord (fold_left (accumulate N) points mean) j =
  fold_left (λ acc p, s_add acc (coord p j)) points (coord mean j).
Proof.
  induction points as [|p points IH]; intros mean j Hj; simpl; [done|].
  rewrite IH by done. unfold accumulate. by rewrite coord_map_seq.
Qed.

Lemma coord_zero_array j : coord (replicate N s_zero) j = s_zero.
Proof.
  unfold coord. destruct (replicate N s_zero !! j) as [x|] eqn:Hx; [|done].
  by apply lookup_replicate in Hx as [-> _].
Qed.

Lemma assigned_points_cons_eq c (p : Point) clusters data :
  assigned_points (c :: clusters) (p :: data) c = p :: assigned_points clusters data c.
Proof. unfold assigned_points. simpl. by rewrite filter_cons_True. Qed.

Lemma assigned_points_cons_ne c c' (p : Point) clusters data :
  c' ≠ c →
  assigned_points (c' :: clusters) (p :: data) c = assigned_points clusters data c.
Proof. intros Hne. unfold assigned_points. simpl. by rewrite filter_cons_False. Qed.

Lemma sum_clusters_spec k : ∀ clusters (data means : list Point) count,
  length means = k → length count = k →
  labels_in_range k clusters data →
  ∃ means' count',
    sum_clusters N (zip clusters data) means count = Ret (means', count') ∧
    length means' = k ∧ length count' = k ∧
    ∀ c mean n, means !! c = Some mean → count !! c = Some n →
      means' !! c = Some (fold_left (accumulate N) (assigned_points clusters data c) mean) ∧
      count' !! c = Some (fold_left (λ n _, s_add n s_one) (assigned_points clusters data c) n).
Proof.
  induction clusters as [|c0 clusters IH]; intros data means count Hm Hc Hr.
  { exists means, count. simpl. done. }
  destruct data as [|p data].
  { exists means, count. simpl. done. }
  simpl.
  assert (c0 < k)%nat as Hc0 by (by apply (Hr 0%nat c0 p)).
  destruct (lookup_lt_is_Some_2 means c0) as [mean0 Hmean0]; [lia|].
  destruct (lookup_lt_is_Some_2 count c0) as [n0 Hn0]; [lia|].
  rewrite Hmean0, Hn0.
  destruct (IH data (<[c0:=accumulate N mean0 p]> means) (<[c0:=s_add n0 s_one]> count))
    as (means' & count' & Hrun & Hm' & Hc' & Hlook).
  - by rewrite length_insert.
  - by rewrite length_insert.
  - intros i c q Hi Hq. by apply (Hr (S i) c q).
  - exists means', count'. split; [exact Hrun|]. split; [exact Hm'|].
    split; [exact Hc'|].
    intros c mean n Hmean Hn. destruct (decide (c0 = c)) as [->|Hne].
    + rewrite assigned_points_cons_eq. simpl.
      rewrite Hmean0 in Hmean. rewrite Hn0 in Hn.
      injection Hmean as ->. injection Hn as ->.
      apply Hlook; apply list_lookup_insert_eq; lia.
    + rewrite assigned_points_cons_ne by done.
      apply Hlook; by rewrite list_lookup_insert_ne.
Qed.

Lemma calculate_means_spec (data : list Point) clusters old_means k :
  (k ≤ length old_means)%nat →
  labels_in_range k clusters data →
  ∃ means,
    calculate_means N data clusters old_means k = Ret means ∧
    length means = k ∧
    ∀ c old, (c < k)%nat → old_means !! c = Some old →
      means !! c = Some (updated_mean N old (assigned_points clusters data c)).
Proof.
  intros Hold Hr. unfold calculate_means.
  destruct (sum_clusters_spec k clusters data
              (replicate k (replicate N s_zero)) (replicate k s_zero))
    as (sums & count & -> & Hls & Hlc & Hlook);
    [by rewrite length_replicate..|done|].
  simpl.
  assert (∀ c, (c < k)%nat → ∃ old, old_means !! c = Some old ∧
            finish_mean N sums count old_means c =
              Ret (updated_mean N old (assigned_points clusters data c))) as Hfin.
  { intros c Hc.
    destruct (lookup_lt_is_Some_2 old_means c) as [old Hold']; [lia|].
    exists old. split; [done|].
    destruct (Hlook c (replicate N s_zero) s_zero) as [Hs Hn];
      [by apply lookup_replicate_2..|].
    unfold finish_mean, updated_mean. rewrite Hs, Hn, Hold'.
    fold (point_count (assigned_points clusters data c)).
    destruct (s_is_zero _); [done|]. f_equal. unfold average.
    apply map_ext_in. intros j Hj%in_seq.
    rewrite coord_fold_accumulate by lia. by rewrite coord_zero_array. }
  destruct (for_each_total (finish_mean N sums count old_means) (seq 0 k))
    as [means Hmeans].
  { intros c Hc%elem_of_seq. destruct (Hfin c) as (old & _ & ->); [lia|eauto]. }
  exists means. split; [done|]. split.
  { apply for_each_length in Hmeans. by rewrite length_seq in Hmeans. }
  intros c old Hc Hold'.
  destruct (for_each_lookup _ _ _ c c Hmeans) as (y & Hy & Hfy).
  { by apply lookup_seq_lt. }
  destruct (Hfin c Hc) as (old' & Hold'' & Hf).
  rewrite Hy. congruence.
Qed.

Lemma calculate_means_overlap (data : list Point) clusters old_means k :
  let n := (length clusters `min` length data)%nat in
  calculate_means N (take n data) (take n clusters) old_means k =
  calculate_means N data clusters old_means k.
Proof.
  intros n. subst n. unfold calculate_means.
  rewrite zip_with_take_both' by lia. reflexivity.
Qed.

Lemma point_count_iter (points : list Point) :
  point_count points = Nat.iter (length points) (λ n, s_add n s_one) s_zero.
Proof.
  unfold point_count. generalize (s_zero (T := T)).
  induction points as [|p points IH]; intros x; simpl; [done|].
  rewrite IH. symmetry.
  exact (Nat.iter_succ_r (length points) _ (λ n, s_add n s_one) x).
Qed.

Lemma assigned_points_elem (data : list Point) clusters i c p :
  clusters !! i = Some c → data !! i = Some p →
  p ∈ assigned_points clusters data c.
Proof.
  intros Hc Hp. unfold assigned_points.
  apply (list_elem_of_fmap_2' snd _ (c, p)); [|done].
  apply list_elem_of_filter. split; [done|].
  apply list_elem_of_lookup. exists i.
  rewrite lookup_zip_with, Hc, Hp. done.
Qed.

Lemma assigned_points_none (data : list Point) clusters c :
  (∀ i p, data !! i = Some p → clusters !! i ≠ Some c) →
  assigned_points clusters data c = [].
Proof.
  revert data. induction clusters as [|c0 clusters IH]; intros data Hno; [done|].
  destruct data as [|p data]; [done|].
  rewrite assigned_points_cons_ne.
  - apply IH. intros i q. apply (Hno (S i) q).
  - intros ->. by apply (Hno 0%nat p).
Qed.

(** C5.  For every dataset, assignment vector with labels below [k],
    previous set of at least [k] means and cluster id [c] below [k] that
    labels at least one dataset point: the mean-update step returns, and
    its mean [c] is the per-component average (component sum divided by the
    number of points, both formed in [T]) of the dataset points labelled
    [c]; the step reads the two sequences over their common length only.
    The count of a non-empty cluster is taken to be non-zero in [T]. *)
Theorem update_averages_assigned_points (data : list Point) (clusters : list nat)
    (old_means : list Point) (k c : nat) :
  (∀ n : nat, s_is_zero (Nat.iter (S n) (λ x, s_add x s_one) s_zero) = false) →
  (c < k)%nat →
  (k ≤ length old_means)%nat →
  labels_in_range k clusters data →
  (∃ i p, clusters !! i = Some c ∧ data !! i = Some p) →
  ∃ means,
    calculate_means N data clusters old_means k = Ret means ∧
    length means = k ∧
    means !! c = Some (average N (assigned_points clusters data c)) ∧
    let n := (length clusters `min` length data)%nat in
    calculate_means N (take n data) (take n clusters) old_means k = Ret means.
Proof.
  intros Hcount Hc Hold Hr (i & p & Hi & Hp).
  destruct (calculate_means_spec data clusters old_means k Hold Hr)
    as (means & Hrun & Hlen & Hlook).
  exists means. split; [done|]. split; [done|]. split.
  - destruct (lookup_lt_is_Some_2 old_means c) as [old Hold']; [lia|].
    rewrite (Hlook c old Hc Hold'). unfold updated_mean.
    rewrite point_count_iter.
    pose proof (assigned_points_elem data clusters i c p Hi Hp) as Hin.
    destruct (assigned_points clusters data c) as [|q points].
    + by apply not_elem_of_nil in Hin.
    + simpl length. by rewrite Hcount.
  - intros n. subst n. by rewrite calculate_means_overlap.
Qed.

(** C6.  For every dataset, assignment vector with labels below [k],
    previous set of [k] means and cluster id [c] below [k]: if no dataset
    point is labelled [c], the mean-update step returns and its mean [c] is
    the previous mean [c].  [T() == 0] is taken to hold in [T]. *)
Theorem update_keeps_empty_cluster (data : list Point) (clusters : list nat)
    (old_means : list Point) (k c : nat) :
  s_is_zero (s_zero (T := T)) = true →
  (c < k)%nat →
  length old_means = k →
  labels_in_range k clusters data →
  (∀ i p, data !! i = Some p → clusters !! i ≠ Some c) →
  ∃ means old,
    calculate_means N data clusters old_means k = Ret means ∧
    old_means !! c = Some old ∧
    means !! c = Some old.
Proof.
  intros Hzero Hc Hold Hr Hno.
  destruct (calculate_means_spec data clusters old_means k) as (means & Hrun & _ & Hlook);
    [lia|done|].
  destruct (lookup_lt_is_Some_2 old_means c) as [old Hold']; [lia|].
  exists means, old. split; [done|]. split; [done|].
  rewrite (Hlook c old Hc Hold'). unfold updated_mean.
  rewrite assigned_points_none by done.
  unfold point_count. simpl. by rewrite Hzero.
Qed.

(** *** closest_mean: the nearest mean, the first among equals *)

Section StrictWeakOrder.

Hypothesis lt_irrefl : ∀ x : T, s_lt x x = false.
Hypothesis lt_trans :
  ∀ x y z : T, s_lt x y = true → s_lt y z = true → s_lt x z = true.
Hypothesis lt_neg_trans :
  ∀ x y z : T, s_lt x y = false → s_lt y z = false → s_lt x z = false.

Lemma closest_mean_loop_invariant point rest :
  ∀ seen smallest index,
    seen_nearest N point seen smallest index →
    ∃ smallest',
      seen_nearest N point (seen ++ rest) smallest'
        (closest_mean_loop N point rest (length seen) smallest index).
Proof.
  induction rest as [|m rest IH]; intros seen smallest index Hinv; simpl.
  - rewrite app_nil_r. eauto.
  - destruct Hinv as (mi & Hmi & -> & Hmin & Hfirst).
    replace (S (length seen)) with (length (seen ++ [m]))
      by (rewrite length_app; simpl; lia).
    replace (seen ++ m :: rest) with ((seen ++ [m]) ++ rest)
      by (by rewrite <- app_assoc).
    destruct (s_lt (distance_squared N point m) (distance_squared N point mi))
      eqn:Hlt; apply IH.
    + exists m. split; [|split; [done|split]].
      * rewrite lookup_app_r by lia. by rewrite Nat.sub_diag.
      * intros j m' Hj. apply lookup_app_Some in Hj as [Hj|[_ Hj]].
        -- destruct (s_lt (distance_squared N point m') (distance_squared N point m))
             eqn:Hlt'; [|done].
           pose proof (lt_trans _ _ _ Hlt' Hlt) as Hc.
           by rewrite (Hmin j m' Hj) in Hc.
        -- apply list_lookup_singleton_Some in Hj as [_ <-]. apply lt_irrefl.
      * intros j m' Hj Hm'. rewrite lookup_app_l in Hm' by done.
        destruct (s_lt (distance_squared N point m) (distance_squared N point m'))
          eqn:Hlt'; [done|].
        pose proof (lt_neg_trans _ _ _ Hlt' (Hmin j m' Hm')) as Hc. congruence.
    + exists mi. split; [|split; [done|split]].
      * apply lookup_app_l_Some. done.
      * intros j m' Hj. apply lookup_app_Some in Hj as [Hj|[_ Hj]]; [eauto|].
        apply list_lookup_singleton_Some in Hj as [_ <-]. done.
      * intros j m' Hj Hm'. apply Hfirst with j; [done|].
        apply lookup_lt_Some in Hmi. by rewrite lookup_app_l in Hm' by lia.
Qed.

Lemma seen_nearest_nearest_first point means smallest index :
  seen_nearest N point means smallest index → nearest_first N point means index.
Proof.
  intros (m & Hm & -> & Hmin & Hfirst). split; [by exists m|].
  intros j (mj & Hmj & Hminj).
  destruct (decide (index ≤ j)%nat) as [|Hn]; [done|].
  assert (j < index)%nat as Hlt by lia.
  pose proof (Hfirst j mj Hlt Hmj) as Htrue.
  pose proof (Hminj index m Hm) as Hfalse. congruence.
Qed.

Lemma closest_mean_loop_nearest point m0 rest :
  nearest_first N point (m0 :: rest)
    (closest_mean_loop N point rest 1 (distance_squared N point m0) 0).
Proof.
  destruct (closest_mean_loop_invariant point rest [m0]
              (distance_squared N point m0) 0%nat) as [s Hs].
  - exists m0. split; [done|]. split; [done|]. split.
    + intros [|j] m'; simpl; [|done]. intros [= <-]. apply lt_irrefl.
    + intros j m' Hj. lia.
  - by eapply seen_nearest_nearest_first.
Qed.

End StrictWeakOrder.

(** *** closest_mean: the least squared Euclidean distance *)

Lemma fold_left_add_map {A} (g : A → T) (l : list A) : ∀ z : T,
  fold_left (λ acc x, s_add acc (g x)) l z = fold_left s_add (map g l) z.
Proof. induction l as [|x l IH]; intros z; simpl; [done|]. apply IH. Qed.

Lemma distance_squared_euclidean (a b : Point) :
  distance_squared N a b = squared_euclidean N a b.
Proof.
  unfold distance_squared, squared_euclidean.
  exact (fold_left_add_map
           (λ j, s_mul (s_sub (coord a j) (coord b j)) (s_sub (coord a j) (coord b j)))
           (seq 0 N) s_zero).
Qed.

Lemma closest_mean_loop_invariant_ordered (point : Point) (means : list Point) rest :
  distances_ordered N point means →
  ∀ seen smallest index,
    (∀ m, m ∈ seen ++ rest → m ∈ means) →
    seen_nearest N point seen smallest index →
    ∃ smallest',
      seen_nearest N point (seen ++ rest) smallest'
        (closest_mean_loop N point rest (length seen) smallest index).
Proof.
  intros (Hirr & Htr & Hneg).
  induction rest as [|a rest IH]; intros seen smallest index Hsub Hinv; simpl.
  { rewrite app_nil_r. eauto. }
  destruct Hinv as (mi & Hmi & -> & Hmin & Hfirst).
  assert (a ∈ means) as Ha.
  { apply Hsub. apply elem_of_app. right. left. }
  assert (∀ j m', seen !! j = Some m' → m' ∈ means) as Hseen.
  { intros j m' Hj. apply Hsub. apply elem_of_app. left.
    by eapply list_elem_of_lookup_2. }
  pose proof (Hseen _ _ Hmi) as Hmi_in.
  replace (S (length seen)) with (length (seen ++ [a]))
    by (rewrite length_app; simpl; lia).
  replace (seen ++ a :: rest) with ((seen ++ [a]) ++ rest) in *
    by (by rewrite <- app_assoc).
  destruct (s_lt (distance_squared N point a) (distance_squared N point mi))
    eqn:Hlt; apply IH; try done.
  - exists a. split; [|split; [done|split]].
    + rewrite lookup_app_r by lia. by rewrite Nat.sub_diag.
    + intros j m' Hj. apply lookup_app_Some in Hj as [Hj|[_ Hj]].
      * destruct (s_lt (distance_squared N point m') (distance_squared N point a))
          eqn:Hlt'; [|done].
        pose proof (Hmin j m' Hj) as Hc.
        rewrite !distance_squared_euclidean in *.
        rewrite (Htr m' a mi) in Hc by eauto. done.
      * apply list_lookup_singleton_Some in Hj as [_ <-].
        rewrite distance_squared_euclidean. by apply Hirr.
    + intros j m' Hj Hm'. rewrite lookup_app_l in Hm' by done.
      destruct (s_lt (distance_squared N point a) (distance_squared N point m'))
        eqn:Hlt'; [done|].
      pose proof (Hmin j m' Hm') as Hc.
      rewrite !distance_squared_euclidean in *.
      rewrite (Hneg a m' mi) in Hlt by eauto. done.
  - exists mi. split; [|split; [done|split]].
    + by apply lookup_app_l_Some.
    + intros j m' Hj. apply lookup_app_Some in Hj as [Hj|[_ Hj]]; [eauto|].
      apply list_lookup_singleton_Some in Hj as [_ <-]. done.
    + intros j m' Hj Hm'. apply Hfirst with j; [done|].
      apply lookup_lt_Some in Hmi. by rewrite lookup_app_l in Hm' by lia.
Qed.

Lemma nearest_first_first_of_nearest (point : Point) (means : list Point) index :
  nearest_first N point means index → first_of_nearest N point means index.
Proof.
  assert (∀ j, minimal_distance N point means j ↔ no_mean_closer N point means j)
    as Hiff.
  { intros j. unfold minimal_distance, no_mean_closer.
    split; intros (m & Hm & Hmin); exists m; (split; [done|]);
      intros i m' Hi; specialize (Hmin i m' Hi);
      by rewrite !distance_squared_euclidean in *. }
  intros [Hmin Hfirst]. split; [by apply Hiff|].
  intros j Hj. apply Hfirst. by apply Hiff.
Qed.

Lemma calculate_clusters_loop_spec rest : ∀ (s : assign_state T) clusters,
  calculate_clusters N rest (as_means s) = Ret clusters →
  calculate_clusters_loop N rest s =
    Ret {| as_data := as_data s;
           as_means := as_means s;
           as_clusters := as_clusters s ++ clusters |}.
Proof.
  induction rest as [|point rest IH]; intros s clusters; cbn.
  { intros [= <-]. rewrite app_nil_r. by destruct s. }
  destruct (closest_mean N point (as_means s)) as [c| | |]; cbn; [|done..].
  destruct (calculate_clusters N rest (as_means s)) as [cs| | |] eqn:Hcs;
    cbn; [|done..].
  intros [= <-]. rewrite (IH _ cs) by exact Hcs. cbn.
  by rewrite <- app_assoc.
Qed.

(** C7.  For every dataset and every non-empty set of means (of at most
    2^32 means, the range of the label type) whose distances from each
    dataset point are ordered by [<]: the assignment step returns one label
    per point; the label of a point is the index of a mean at the least
    squared Euclidean distance from it ([squared_euclidean], the sum of the
    squared component differences), and the lowest index among the means at
    that distance.  Run on the state of the call, the step ends with the
    dataset and the means as they were given, and with these labels. *)
Theorem assignment_selects_nearest_first (data means : list Point) :
  means ≠ [] →
  Z.of_nat (length means) ≤ 2 ^ 32 →
  (∀ point, point ∈ data → distances_ordered N point means) →
  ∃ clusters,
    calculate_clusters N data means = Ret clusters ∧
    length clusters = length data ∧
    (∀ i point, data !! i = Some point →
       ∃ index,
         closest_mean N point means = Ret index ∧
         clusters !! i = Some index ∧
         first_of_nearest N point means index) ∧
    calculate_clusters_run N data means =
      Ret {| as_data := data; as_means := means; as_clusters := clusters |}.
Proof.
  intros Hne Hsize Hord.
  destruct (calculate_clusters_spec data means Hne)
    as (clusters & Hcl & Hlen & _ & Hlook).
  exists clusters. split; [done|]. split; [done|]. split.
  - intros i point Hi. destruct (Hlook i point Hi) as (c & Hc & Hcm).
    exists c. split; [done|]. split; [done|].
    destruct means as [|m0 rest]; [done|]. simpl in Hcm.
    injection Hcm as <-.
    pose proof (closest_mean_loop_bound point rest 1
      (distance_squared N point m0) 0%nat) as Hlt.
    rewrite to_uint32_small by (simpl in Hsize; lia).
    assert (point ∈ data) as Hin by (by eapply list_elem_of_lookup_2).
    pose proof (Hord point Hin) as Hpoint.
    destruct (closest_mean_loop_invariant_ordered point (m0 :: rest) rest Hpoint
                [m0] (distance_squared N point m0) 0%nat) as [smallest Hs].
    + done.
    + exists m0. split; [done|]. split; [done|]. split.
      * intros [|j] m'; simpl; [|done]. intros [= <-].
        destruct Hpoint as (Hirr & _). rewrite distance_squared_euclidean.
        apply Hirr. left.
      * intros j m' Hj. lia.
    + apply nearest_first_first_of_nearest.
      by eapply seen_nearest_nearest_first.
  - unfold calculate_clusters_run.
    by rewrite (calculate_clusters_loop_spec data _ clusters).
Qed.

(** *** point_collection_epsilon *)

Lemma point_collection_epsilon_total uninit_a uninit_b (point_a point_b : list Point) :
  length point_a = length point_b →
  ∃ d, point_collection_epsilon N uninit_a uninit_b point_a point_b = Ret d.
Proof.
  intros Hlen. unfold point_collection_epsilon.
  destruct (decide _); [eauto|done].
Qed.

(* with the two arrays zero on entry the check is the mean-shift scalar *)
Lemma point_collection_epsilon_initialized uninit_a uninit_b
    (point_a point_b : list Point) :
  (∀ dim, coord uninit_a dim = s_zero) →
  (∀ dim, coord uninit_b dim = s_zero) →
  length point_a = length point_b →
  point_collection_epsilon N uninit_a uninit_b point_a point_b =
  Ret (mean_shift N point_a point_b).
Proof.
  intros Ha Hb Hlen. unfold point_collection_epsilon, mean_shift.
  destruct (decide _); [|done]. do 3 f_equal.
  - apply map_ext. intros dim. unfold column_mean, component_sum. by rewrite Ha.
  - apply map_ext. intros dim. unfold column_mean, component_sum. by rewrite Hb.
Qed.

(** *** One round of the do-while loop *)

Lemma lloyd_loop_round fuel w (data : list Point) k maxIter epsilon means count
    clusters means' d :
  calculate_clusters N data means = Ret clusters →
  calculate_means N data clusters means k = Ret means' →
  point_collection_epsilon N (uninitialized w (count + 1)).1
    (uninitialized w (count + 1)).2 means' means = Ret d →
  lloyd_loop N (S fuel) w data k maxIter epsilon means count =
  if float_gt d epsilon && bool_decide (count + 1 < maxIter)
  then
    ((lloyd_loop N fuel w data k maxIter epsilon means' (count + 1)).1,
     pass_events ++ (lloyd_loop N fuel w data k maxIter epsilon means' (count + 1)).2)
  else (Ret (means', clusters), pass_events).
Proof.
  intros Hcl Hme Hd. cbn [lloyd_loop].
  rewrite Hcl, traced_bind_lift, traced_bind_tell.
  rewrite Hme, traced_bind_lift, traced_bind_tell.
  destruct (uninitialized w (count + 1)) as [uninit_a uninit_b]. simpl in Hd.
  rewrite Hd, traced_bind_lift, traced_bind_tell.
  by destruct (float_gt d epsilon && bool_decide (count + 1 < maxIter)).
Qed.

(** *** The result of the driver's loop *)

Lemma labels_in_range_Forall k clusters (data : list Point) :
  Forall (λ c, c < k)%nat clusters → labels_in_range k clusters data.
Proof.
  intros Hall i c p Hc _. rewrite Forall_lookup in Hall. by apply (Hall i).
Qed.

Lemma lloyd_round_total w (data : list Point) k means count :
  (0 < k)%nat → length means = k →
  ∃ clusters means' d,
    calculate_clusters N data means = Ret clusters ∧
    calculate_means N data clusters means k = Ret means' ∧
    point_collection_epsilon N (uninitialized w count).1
      (uninitialized w count).2 means' means = Ret d ∧
    length clusters = length data ∧
    Forall (λ c, c < k)%nat clusters ∧
    length means' = k.
Proof.
  intros Hk Hlen.
  destruct (calculate_clusters_spec data means) as (clusters & Hcl & Hlc & Hall & _).
  { intros ->. simpl in Hlen. lia. }
  rewrite Hlen in Hall.
  destruct (calculate_means_spec data clusters means k) as (means' & Hme & Hlm & _);
    [lia|by apply labels_in_range_Forall|].
  destruct (point_collection_epsilon_total (uninitialized w count).1
              (uninitialized w count).2 means' means) as [d Hd]; [lia|].
  exists clusters, means', d. done.
Qed.

Lemma lloyd_loop_spec w (data : list Point) k maxIter epsilon :
  (0 < k)%nat →
  ∀ fuel means count,
    length means = k →
    (0 < fuel)%nat →
    maxIter - count ≤ Z.of_nat fuel →
    ∃ means' clusters n,
      lloyd_loop N fuel w data k maxIter epsilon means count =
        (Ret (means', clusters), mjoin (replicate (S n) pass_events)) ∧
      (S n ≤ fuel)%nat ∧
      length means' = k ∧
      length clusters = length data ∧
      Forall (λ c, c < k)%nat clusters ∧
      returned_after N data k means n means' clusters.
Proof.
  intros Hk. induction fuel as [|fuel IH]; intros means count Hlen Hfuel Hmax; [lia|].
  destruct (lloyd_round_total w data k means (count + 1) Hk Hlen)
    as (clusters & means' & d & Hcl & Hme & Hd & Hlc & Hall & Hlm).
  rewrite (lloyd_loop_round _ _ _ _ _ _ _ _ _ _ _ Hcl Hme Hd).
  destruct (float_gt d epsilon && bool_decide (count + 1 < maxIter)) eqn:Hcond.
  - apply andb_true_iff in Hcond as [_ Hlt%bool_decide_eq_true].
    destruct (IH means' (count + 1))
      as (means'' & clusters' & n & -> & Hn & Hlm' & Hlc' & Hall' & Hret);
      [done|lia|lia|].
    exists means'', clusters', (S n). split; [done|]. split; [lia|].
    split; [done|]. split; [done|]. split; [done|].
    destruct Hret as (prev & Hprev & Hrest). exists prev. split; [|done].
    cbn [lloyd_updates]. unfold lloyd_update. rewrite Hcl. simpl.
    rewrite Hme. simpl. exact Hprev.
  - exists means', clusters, 0%nat. split; [done|]. split; [lia|].
    split; [done|]. split; [done|]. split; [done|]. by exists means.
Qed.

(** *** The initializer *)

Lemma cassert_true {B} a (f : unit → traced B) :
  (cassert a true ≫= f) = f tt.
Proof. unfold cassert. rewrite traced_bind_ret. by destruct (f tt). Qed.

Lemma closest_distance_spec (means data : list Point) k :
  means ≠ [] →
  ∃ distances,
    closest_distance N means data k = Ret distances ∧
    length distances = length data.
Proof.
  intros Hne. unfold closest_distance.
  destruct means as [|m0 means]; [done|].
  match goal with |- context [for_each ?f data] =>
    destruct (for_each_total f data) as [ds Hds]; [eauto|] end.
  exists ds. split; [done|]. by eapply for_each_length.
Qed.

Lemma random_plusplus_seeded w (data : list Point) k defaultSeed :
  (0 < k)%nat →
  random_plusplus N w data k defaultSeed =
  ((draw_means N data k (seeded_engine w defaultSeed)).1,
   seed_events defaultSeed ++ (draw_means N data k (seeded_engine w defaultSeed)).2).
Proof.
  intros Hk. unfold random_plusplus, seeded_engine, seed_events.
  rewrite bool_decide_eq_true_2 by done. rewrite cassert_true.
  fold (draw_means N data k). destruct (decide (defaultSeed = -1)).
  - rewrite traced_bind_tell. unfold mret, traced_mret. cbn [fst snd].
    by rewrite traced_bind_ret.
  - unfold mret, traced_mret. by rewrite traced_bind_ret.
Qed.

Section DistributionRanges.

Hypothesis uniform_range : ∀ a b g,
  a ≤ b → a ≤ (uniform_int_distribution (T := T) a b g).1 ≤ b.
Hypothesis discrete_range : ∀ (weights : list T) g,
  0 ≤ (discrete_distribution weights g).1 ≤ probabilities_size weights.

Lemma random_plusplus_loop_spec (data : list Point) k :
  data ≠ [] →
  ∀ rounds means g,
    means ≠ [] →
    ∃ means',
      random_plusplus_loop N rounds data k means g =
        (Ret means', replicate rounds WeightedDraw) ∧
      length means' = (length means + rounds)%nat ∧
      (Forall (λ m, m ∈ data) means → Forall (λ m, m ∈ data) means').
Proof.
  intros Hdata. induction rounds as [|rounds IH]; intros means g Hne.
  { exists means. simpl. split; [done|]. split; [lia|done]. }
  cbn [random_plusplus_loop].
  destruct (closest_distance_spec means data k Hne) as (ds & -> & Hlen).
  rewrite traced_bind_lift.
  pose proof (discrete_range ds g) as Hrange.
  destruct (discrete_distribution ds g) as [index g']. simpl in Hrange.
  rewrite traced_bind_tell.
  assert (probabilities_size ds = Z.of_nat (length data)) as Hsize.
  { destruct ds as [|d ds]; [|by rewrite <- Hlen].
    destruct data; [done|discriminate]. }
  set (index' := if decide (index = probabilities_size ds) then 0 else index).
  assert (0 ≤ index' < Z.of_nat (length data)) as Hindex.
  { subst index'. destruct data; [done|]. destruct (decide _); simpl length in *; lia. }
  destruct (lookup_lt_is_Some_2 data (Z.to_nat index')) as [point Hpoint]; [lia|].
  rewrite Hpoint.
  destruct (IH (means ++ [point]) g') as (means' & -> & Hlen' & Hin).
  { by destruct means. }
  exists means'. split; [done|]. split.
  - rewrite Hlen', length_app. simpl. lia.
  - intros Hall. apply Hin. apply Forall_app. split; [done|].
    apply Forall_singleton. by eapply list_elem_of_lookup_2.
Qed.

Lemma random_plusplus_spec w (data : list Point) k defaultSeed :
  (0 < k)%nat → data ≠ [] →
  ∃ means,
    random_plusplus N w data k defaultSeed =
      (Ret means,
       seed_events defaultSeed ++ UniformDraw :: replicate (k - 1) WeightedDraw) ∧
    length means = k ∧
    Forall (λ m, m ∈ data) means.
Proof.
  intros Hk Hdata. rewrite random_plusplus_seeded by done. unfold draw_means.
  assert (0 < Z.of_nat (length data)) as Hlen by (destruct data; [done|simpl; lia]).
  pose proof (uniform_range 0 (to_uint64 (Z.of_nat (length data) - 1))
                (seeded_engine w defaultSeed)) as Hrange.
  assert (0 ≤ to_uint64 (Z.of_nat (length data) - 1) ≤ Z.of_nat (length data) - 1) as Hb.
  { unfold to_uint64. split; [apply Z.mod_pos_bound; lia|apply Z.mod_le; lia]. }
  destruct (uniform_int_distribution _ _ _) as [index g]. simpl in Hrange.
  rewrite traced_bind_tell.
  destruct (lookup_lt_is_Some_2 data (Z.to_nat index)) as [point Hpoint]; [lia|].
  rewrite Hpoint.
  destruct (random_plusplus_loop_spec data k Hdata (k - 1) [point] g)
    as (means & -> & Hlm & Hin); [done|].
  exists means. simpl. split; [done|]. split; [simpl in Hlm; lia|].
  apply Hin. apply Forall_singleton. by eapply list_elem_of_lookup_2.
Qed.

(** *** kmeans_lloyd *)

Lemma kmeans_lloyd_valid w (data : list Point) k maxIter seed epsilon :
  (0 < k)%nat → 0 < maxIter → (k ≤ length data)%nat →
  kmeans_lloyd N w data k maxIter seed epsilon =
  (random_plusplus N w data k seed ≫= λ means,
     lloyd_loop N (Z.to_nat maxIter) w data k maxIter epsilon means 0).
Proof.
  intros Hk Hmax Hdata. unfold kmeans_lloyd.
  rewrite !bool_decide_eq_true_2 by done. by rewrite !cassert_true.
Qed.

Lemma kmeans_lloyd_spec w (data : list Point) k maxIter seed epsilon :
  (0 < k)%nat → 0 < maxIter → (k ≤ length data)%nat →
  ∃ means0 means clusters n,
    random_plusplus N w data k seed =
      (Ret means0, seed_events seed ++ UniformDraw :: replicate (k - 1) WeightedDraw) ∧
    kmeans_lloyd N w data k maxIter seed epsilon =
      (Ret (means, clusters),
       (seed_events seed ++ UniformDraw :: replicate (k - 1) WeightedDraw) ++
       mjoin (replicate (S n) pass_events)) ∧
    Z.of_nat n < maxIter ∧
    length means = k ∧
    length clusters = length data ∧
    Forall (λ c, c < k)%nat clusters ∧
    returned_after N data k means0 n means clusters.
Proof.
  intros Hk Hmax Hdata. rewrite kmeans_lloyd_valid by done.
  destruct (random_plusplus_spec w data k seed) as (means0 & Hinit & Hlen0 & _);
    [done|by destruct data; [simpl in Hdata; lia|]|].
  destruct (lloyd_loop_spec w data k maxIter epsilon Hk (Z.to_nat maxIter) means0 0)
    as (means & clusters & n & Hloop & Hn & Hrest); [done|lia|lia|].
  exists means0, means, clusters, n. split; [done|]. split.
  { by apply traced_bind_run with means0. }
  split; [lia|]. done.
Qed.

(** C1.  For every dataset, [k > 0] and [maxIter > 0] with at least [k]
    dataset points, and distributions that answer within their ranges:
    [kmeans_lloyd] returns a pair; the labels are as many as the dataset
    points, every label is below [k], and the means are exactly [k]. *)
Theorem kmeans_lloyd_result_shape w (data : list Point) k maxIter seed epsilon :
  (0 < k)%nat → 0 < maxIter → (k ≤ length data)%nat →
  ∃ means clusters trace,
    kmeans_lloyd N w data k maxIter seed epsilon = (Ret (means, clusters), trace) ∧
    length clusters = length data ∧
    Forall (λ c, 0 ≤ c < k)%nat clusters ∧
    length means = k.
Proof.
  intros Hk Hmax Hdata.
  destruct (kmeans_lloyd_spec w data k maxIter seed epsilon Hk Hmax Hdata)
    as (means0 & means & clusters & n & _ & Hrun & _ & Hlm & Hlc & Hall & _).
  exists means, clusters. eexists. split; [exact Hrun|]. split; [done|].
  split; [|done]. rewrite Forall_lookup in Hall. apply Forall_lookup.
  intros i c Hc. specialize (Hall i c Hc). simpl in Hall. lia.
Qed.

(** C4.  For every valid input, [kmeans_lloyd] returns after some [n] full
    rounds and a last one, [n] below [maxIter]: with [prev] the means the
    initial means have become after the [n] rounds, that is the means
    before the update of the last round, the returned labels are
    [calculate_clusters] of [prev], and the returned means are
    [calculate_means] of these labels and [prev].  The passes are traced in
    this order, each round an assignment, an update and a check. *)
Theorem kmeans_lloyd_labels_from_previous_means w (data : list Point) k maxIter
    seed epsilon :
  (0 < k)%nat → 0 < maxIter → (k ≤ length data)%nat →
  ∃ means0 init_trace n prev means clusters,
    random_plusplus N w data k seed = (Ret means0, init_trace) ∧
    Z.of_nat n < maxIter ∧
    lloyd_updates N n data k means0 = Ret prev ∧
    calculate_clusters N data prev = Ret clusters ∧
    calculate_means N data clusters prev k = Ret means ∧
    kmeans_lloyd N w data k maxIter seed epsilon =
      (Ret (means, clusters),
       init_trace ++
       mjoin (replicate (S n) [AssignPass; UpdatePass; ConvergenceCheck])).
Proof.
  intros Hk Hmax Hdata.
  destruct (kmeans_lloyd_spec w data k maxIter seed epsilon Hk Hmax Hdata)
    as (means0 & means & clusters & n & Hinit & Hrun & Hn & _ & _ & _ & Hret).
  destruct Hret as (prev & Hprev & _ & Hcl & Hme).
  exists means0. eexists. exists n, prev, means, clusters.
  split; [exact Hinit|]. done.
Qed.

(** C8.  For every valid dataset, [k], seed and epsilon, and whatever the
    convergence check reads: with [maxIter = 1] the driver makes one
    assignment pass and one update pass after the initializer and returns;
    the labels are those computed from the initial means and the means are
    the result of the first update. *)
Theorem kmeans_lloyd_single_iteration w (data : list Point) k seed epsilon :
  (0 < k)%nat → (k ≤ length data)%nat →
  ∃ means0 init_trace clusters means,
    random_plusplus N w data k seed = (Ret means0, init_trace) ∧
    calculate_clusters N data means0 = Ret clusters ∧
    calculate_means N data clusters means0 k = Ret means ∧
    kmeans_lloyd N w data k 1 seed epsilon =
      (Ret (means, clusters),
       init_trace ++ [AssignPass; UpdatePass; ConvergenceCheck]).
Proof.
  intros Hk Hdata. rewrite kmeans_lloyd_valid by (done || lia).
  destruct (random_plusplus_spec w data k seed) as (means0 & Hinit & Hlen0 & _);
    [done|by destruct data; [simpl in Hdata; lia|]|].
  destruct (lloyd_round_total w data k means0 (0 + 1) Hk Hlen0)
    as (clusters & means & d & Hcl & Hme & Hd & _).
  exists means0. eexists. exists clusters, means.
  split; [exact Hinit|]. split; [done|]. split; [done|].
  eapply traced_bind_run; [exact Hinit|].
  change (Z.to_nat 1) with 1%nat.
  rewrite (lloyd_loop_round _ _ _ _ _ _ _ _ _ _ _ Hcl Hme Hd).
  rewrite bool_decide_eq_false_2 by lia. by rewrite andb_false_r.
Qed.

End DistributionRanges.

(** *** What a call reads of its environment *)

Lemma lloyd_loop_reads_uninitialized (w1 w2 : World) (data : list Point) k
    maxIter epsilon :
  (∀ count, uninitialized w1 count = uninitialized w2 count) →
  ∀ fuel means count,
    lloyd_loop N fuel w1 data k maxIter epsilon means count =
    lloyd_loop N fuel w2 data k maxIter epsilon means count.
Proof.
  intros Hw. induction fuel as [|fuel IH]; intros means count; [done|].
  cbn [lloyd_loop]. rewrite Hw.
  apply traced_bind_ext. intros clusters.
  apply traced_bind_ext. intros _.
  apply traced_bind_ext. intros means'.
  apply traced_bind_ext. intros _.
  destruct (uninitialized w2 (count + 1)) as [uninit_a uninit_b].
  apply traced_bind_ext. intros d.
  apply traced_bind_ext. intros _.
  destruct (float_gt d epsilon && bool_decide (count + 1 < maxIter)); [|done].
  apply IH.
Qed.

Lemma random_plusplus_explicit_seed (w1 w2 : World) (data : list Point) k seed :
  seed ≠ -1 →
  random_plusplus N w1 data k seed = random_plusplus N w2 data k seed.
Proof.
  intros Hseed. unfold random_plusplus. by destruct (decide (seed = -1)).
Qed.

(** With an explicit seed the result is the same in every two environments
    that agree on what the convergence check finds in its arrays. *)
Lemma kmeans_lloyd_explicit_seed (w1 w2 : World) (data : list Point) k maxIter
    seed epsilon :
  seed ≠ -1 →
  (∀ count, uninitialized w1 count = uninitialized w2 count) →
  kmeans_lloyd N w1 data k maxIter seed epsilon =
  kmeans_lloyd N w2 data k maxIter seed epsilon.
Proof.
  intros Hseed Hw. unfold kmeans_lloyd.
  do 3 (apply traced_bind_ext; intros _).
  rewrite (random_plusplus_explicit_seed w1 w2) by done.
  apply traced_bind_ext. intros means.
  by apply lloyd_loop_reads_uninitialized.
Qed.

(** C9.  For every input with [k = 0], or [maxIter <= 0], or fewer than [k]
    dataset points, [kmeans_lloyd] stops at the first assertion that fails,
    in the order of the source, with an empty trace: no draw and no pass was
    made.  The initializer called with [k = 0] stops at its own assertion,
    before the random device or a distribution is used. *)
Theorem kmeans_lloyd_precondition_failure w (data : list Point) k maxIter seed epsilon :
  k = 0%nat ∨ maxIter ≤ 0 ∨ (length data < k)%nat →
  kmeans_lloyd N w data k maxIter seed epsilon =
    (AssertionFailed
       (if decide (k = 0%nat) then Assert_k_positive
        else if decide (maxIter ≤ 0) then Assert_maxIter_positive
             else Assert_enough_data), []) ∧
  random_plusplus N w data 0 seed = (AssertionFailed Assert_k_positive, []).
Proof.
  intros Hbad. split; [|reflexivity]. unfold kmeans_lloyd.
  destruct (decide (k = 0%nat)) as [->|Hk]; [reflexivity|].
  rewrite (bool_decide_eq_true_2 (0 < k)%nat) by lia. rewrite cassert_true.
  destruct (decide (maxIter ≤ 0)) as [Hmax|Hmax].
  { rewrite (bool_decide_eq_false_2 (0 < maxIter)) by lia. reflexivity. }
  rewrite (bool_decide_eq_true_2 (0 < maxIter)) by lia. rewrite cassert_true.
  rewrite (bool_decide_eq_false_2 (k ≤ length data)%nat) by lia. reflexivity.
Qed.

End Properties.

(** ** Further properties of the functions *)

Section Further.

Context {T : Type} `{Scalar T} `{Distributions T}.
Variable N : nat.
Local Abbreviation Point := (list T).
Local Abbreviation World := (World T).

(** *** calculate_clusters: the assertion of closest_mean *)

(** [calculate_clusters] returns labels exactly when the dataset is empty or
    there is a mean; with points and no mean it stops at the assertion of
    [closest_mean], and on the empty dataset it returns no label whatever
    the means are. *)
Theorem calculate_clusters_needs_a_mean (data means : list Point) :
  ((∃ clusters, calculate_clusters N data means = Ret clusters) ↔
   (data = [] ∨ means ≠ [])) ∧
  (data ≠ [] →
   calculate_clusters N data [] = AssertionFailed Assert_means_nonempty) ∧
  calculate_clusters N [] means = Ret [].
Proof.
  split; [|split; [|reflexivity]].
  - split.
    + intros [clusters Hrun]. destruct data as [|point data]; [by left|].
      right. intros ->. discriminate.
    + intros [->|Hne]; [by exists []|].
      destruct (calculate_clusters_spec N data means Hne) as (clusters & Hrun & _).
      eauto.
  - destruct data; [done|reflexivity].
Qed.

(** *** closest_distance and closest_mean make the same choice *)

Lemma closest_fold_loop (d : Point) rest :
  ∀ seen smallest index m,
    seen !! index = Some m →
    smallest = distance_squared N d m →
    ∃ m',
      (seen ++ rest) !! closest_mean_loop N d rest (length seen) smallest index
        = Some m' ∧
      fold_left
        (λ closest m,
           let distance := distance_squared N d m in
           if s_lt distance closest then distance else closest)
        rest smallest = distance_squared N d m'.
Proof.
  induction rest as [|a rest IH]; intros seen smallest index m Hm ->.
  { exists m. rewrite app_nil_r. done. }
  cbn [closest_mean_loop fold_left].
  replace (S (length seen)) with (length (seen ++ [a]))
    by (rewrite length_app; simpl; lia).
  replace (seen ++ a :: rest) with ((seen ++ [a]) ++ rest)
    by (by rewrite <- app_assoc).
  destruct (s_lt (distance_squared N d a) (distance_squared N d m)).
  - apply (IH (seen ++ [a]) _ (length seen) a); [|done].
    rewrite lookup_app_r by lia. by rewrite Nat.sub_diag.
  - apply (IH (seen ++ [a]) _ index m); [|done].
    by apply lookup_app_l_Some.
Qed.

Lemma closest_distance_lookup (m0 : Point) rest (data : list Point) k distances i d :
  closest_distance N (m0 :: rest) data k = Ret distances →
  data !! i = Some d →
  ∃ m',
    (m0 :: rest) !! closest_mean_loop N d rest 1 (distance_squared N d m0) 0
      = Some m' ∧
    distances !! i = Some (distance_squared N d m').
Proof.
  intros Hds Hd. unfold closest_distance in Hds.
  destruct (for_each_lookup _ _ _ i d Hds Hd) as (y & Hy & Hfy).
  injection Hfy as <-.
  destruct (closest_fold_loop d rest [m0] (distance_squared N d m0) 0%nat m0)
    as (m' & Hm' & Hfold); [done..|].
  exists m'. split; [exact Hm'|].
  rewrite Hy. f_equal. rewrite <- Hfold. cbn [fold_left].
  by destruct (s_lt _ _).
Qed.

(** For a non-empty set of at most 2^32 means, [closest_distance] returns
    one weight per dataset point, and the weight of a point is its squared
    distance to the very mean that [closest_mean] selects for it. *)
Theorem closest_distance_of_closest_mean (means data : list Point) (k : nat) :
  means ≠ [] →
  Z.of_nat (length means) ≤ 2 ^ 32 →
  ∃ distances,
    closest_distance N means data k = Ret distances ∧
    length distances = length data ∧
    ∀ i d, data !! i = Some d →
      ∃ index m,
        closest_mean N d means = Ret index ∧
        means !! index = Some m ∧
        distances !! i = Some (distance_squared N d m).
Proof.
  intros Hne Hsize.
  destruct (closest_distance_spec N means data k Hne) as (ds & Hds & Hlen).
  exists ds. split; [done|]. split; [done|].
  intros i d Hd. destruct means as [|m0 rest]; [done|].
  destruct (closest_distance_lookup m0 rest data k ds i d Hds Hd) as (m' & Hm' & Hx).
  pose proof (closest_mean_loop_bound N d rest 1 (distance_squared N d m0) 0%nat) as Hlt.
  exists (closest_mean_loop N d rest 1 (distance_squared N d m0) 0), m'.
  split; [|done].
  simpl. rewrite to_uint32_small by (simpl in Hsize; lia). reflexivity.
Qed.

(** *** calculate_means: subscripts *)

Lemma sum_clusters_out_of_range k : ∀ pairs (means : list Point) (count : list T),
  length means = k → length count = k →
  (∃ c p, (c, p) ∈ pairs ∧ (k ≤ c)%nat) →
  sum_clusters N pairs means count = OutOfBounds.
Proof.
  induction pairs as [|[c0 p0] pairs IH]; intros means count Hm Hc (c & p & Hin & Hge).
  { by apply not_elem_of_nil in Hin. }
  cbn [sum_clusters].
  destruct (decide (c0 < k)%nat) as [Hlt|Hnlt].
  { destruct (lookup_lt_is_Some_2 means c0) as [mean0 Hmean0]; [lia|].
    destruct (lookup_lt_is_Some_2 count c0) as [n0 Hn0]; [lia|].
    rewrite Hmean0, Hn0.
    apply IH; [by rewrite length_insert..|].
    apply elem_of_cons in Hin as [Heq|Hin]; [|by exists c, p].
    injection Heq as -> ->. lia. }
  rewrite (lookup_ge_None_2 means c0) by lia. reflexivity.
Qed.

(** A label that is not below [k], at a position that has a point, makes
    [calculate_means] subscript its vectors of [k] sums and counts past the
    end; the code has no check for it. *)
Theorem calculate_means_label_out_of_range (data : list Point)
    (clusters : list nat) (old_means : list Point) (k i c : nat) (p : Point) :
  clusters !! i = Some c →
  data !! i = Some p →
  (k ≤ c)%nat →
  calculate_means N data clusters old_means k = OutOfBounds.
Proof.
  intros Hc Hp Hge. unfold calculate_means.
  rewrite (sum_clusters_out_of_range k); [reflexivity|by rewrite length_replicate..|].
  exists c, p. split; [|done].
  apply list_elem_of_lookup. exists i. by rewrite lookup_zip_with, Hc, Hp.
Qed.

Lemma for_each_out_of_bounds {A B} (f : A → outcome B) (l : list A) :
  (∀ x, x ∈ l → f x = OutOfBounds ∨ ∃ y, f x = Ret y) →
  (∃ x, x ∈ l ∧ f x = OutOfBounds) →
  for_each f l = OutOfBounds.
Proof.
  induction l as [|a l IH]; intros Hall (x & Hin & Hx).
  { by apply not_elem_of_nil in Hin. }
  cbn [for_each]. destruct (Hall a) as [->|[y Hy]]; [left|done|].
  rewrite Hy. simpl.
  apply elem_of_cons in Hin as [->|Hin]; [congruence|].
  rewrite IH; [done| |eauto]. intros z Hz. apply Hall. by right.
Qed.

(** With fewer than [k] previous means, a cluster without points whose
    previous mean is missing makes [calculate_means] subscript [old_means]
    past its end.  [T() == 0] is taken to hold in [T]. *)
Theorem calculate_means_missing_old_mean (data : list Point)
    (clusters : list nat) (old_means : list Point) (k c : nat) :
  s_is_zero (s_zero (T := T)) = true →
  labels_in_range k clusters data →
  (c < k)%nat →
  (length old_means ≤ c)%nat →
  (∀ i p, data !! i = Some p → clusters !! i ≠ Some c) →
  calculate_means N data clusters old_means k = OutOfBounds.
Proof.
  intros Hzero Hr Hc Hold Hno. unfold calculate_means.
  destruct (sum_clusters_spec N k clusters data
              (replicate k (replicate N s_zero)) (replicate k s_zero))
    as (sums & count & -> & Hls & Hlc & Hlook);
    [by rewrite length_replicate..|done|].
  simpl. apply for_each_out_of_bounds.
  - intros i _. unfold finish_mean.
    destruct (sums !! i) as [mean|]; [|by left].
    destruct (count !! i) as [n|]; [|by left].
    destruct (s_is_zero n); [|right; eauto].
    destruct (old_means !! i); [right; eauto|by left].
  - exists c. split; [apply elem_of_seq; lia|].
    destruct (Hlook c (replicate N s_zero) s_zero) as [Hs Hn];
      [by apply lookup_replicate_2..|].
    unfold finish_mean. rewrite Hs, Hn.
    rewrite assigned_points_none by done. simpl. rewrite Hzero.
    by rewrite (lookup_ge_None_2 old_means c).
Qed.

(** *** The initializer *)

(** Called with [k > 0] on the empty dataset, [random_plusplus] asks the
    uniform distribution for an index (the upper bound [data.size() - 1]
    wraps around) and subscripts the empty dataset with it: the function
    itself has no check that there is a point. *)
Theorem random_plusplus_empty_dataset (w : World) (k : nat) (seed : Z) :
  (0 < k)%nat →
  to_uint64 (Z.of_nat (length (@nil Point)) - 1) = 2 ^ 64 - 1 ∧
  random_plusplus N w [] k seed = (OutOfBounds, seed_events seed ++ [UniformDraw]).
Proof.
  intros Hk. split; [reflexivity|].
  rewrite random_plusplus_seeded by done. unfold draw_means.
  destruct (uniform_int_distribution _ _ _) as [index g].
  rewrite traced_bind_tell. reflexivity.
Qed.

Section DistributionRanges.

Hypothesis uniform_range : ∀ a b g,
  a ≤ b → a ≤ (uniform_int_distribution (T := T) a b g).1 ≤ b.
Hypothesis discrete_range : ∀ (weights : list T) g,
  0 ≤ (discrete_distribution weights g).1 ≤ probabilities_size weights.

(** On a non-empty dataset and for [k > 0], with distributions that answer
    within their ranges, [random_plusplus] returns exactly [k] means, each
    of them a point of the dataset; it reads the random device only for the
    seed -1, and then once, and makes one uniform draw followed by [k - 1]
    weighted draws. *)
Theorem random_plusplus_draws_dataset_points (w : World) (data : list Point)
    (k : nat) (seed : Z) :
  (0 < k)%nat → data ≠ [] →
  ∃ means,
    random_plusplus N w data k seed =
      (Ret means,
       (if decide (seed = -1) then [RandomDevice] else []) ++
       UniformDraw :: replicate (k - 1) WeightedDraw) ∧
    length means = k ∧
    Forall (λ m, m ∈ data) means.
Proof.
  intros Hk Hdata.
  exact (random_plusplus_spec N uniform_range discrete_range w data k seed Hk Hdata).
Qed.

(** *** One cluster *)

Lemma calculate_clusters_one_mean (data : list Point) (m : Point) :
  calculate_clusters N data [m] = Ret (replicate (length data) 0%nat).
Proof.
  induction data as [|point data IH]; [done|].
  cbn [calculate_clusters]. rewrite IH. reflexivity.
Qed.

Lemma assigned_points_all (data : list Point) :
  assigned_points (replicate (length data) 0%nat) data 0 = data.
Proof.
  induction data as [|point data IH]; [done|].
  simpl. rewrite assigned_points_cons_eq. by rewrite IH.
Qed.

(** With [k = 1] the result does not depend on the seed, on [maxIter], on
    epsilon or on the environment: every point is labelled 0 and the one
    mean is the average of the dataset.  The count of a non-empty dataset is
    taken to be non-zero in [T]. *)
Theorem kmeans_lloyd_one_cluster (w : World) (data : list Point) (maxIter seed : Z)
    (epsilon : float) :
  (∀ n : nat, s_is_zero (Nat.iter (S n) (λ x, s_add x s_one) s_zero) = false) →
  0 < maxIter → data ≠ [] →
  (kmeans_lloyd N w data 1 maxIter seed epsilon).1 =
    Ret ([average N data], replicate (length data) 0%nat).
Proof.
  intros Hcount Hmax Hdata.
  destruct (kmeans_lloyd_spec N uniform_range discrete_range w data 1 maxIter
              seed epsilon) as (means0 & means & clusters & n & _ & -> & _ & Hlm & _ & _ & Hret);
    [lia|lia|destruct data; [done|simpl; lia]|].
  destruct Hret as (prev & _ & Hlp & Hcl & Hme). simpl.
  destruct prev as [|m [|]]; [done| |done].
  rewrite calculate_clusters_one_mean in Hcl. injection Hcl as <-.
  destruct (calculate_means_spec N data (replicate (length data) 0%nat) [m] 1)
    as (means' & Hme' & _ & Hlook); [simpl; lia| |].
  { apply labels_in_range_Forall. apply Forall_replicate. lia. }
  rewrite Hme in Hme'. injection Hme' as <-.
  specialize (Hlook 0%nat m). rewrite assigned_points_all in Hlook.
  unfold updated_mean in Hlook. rewrite point_count_iter in Hlook.
  destruct data as [|point data]; [done|]. simpl length in Hlook.
  rewrite Hcount in Hlook.
  destruct means as [|mean [|]]; [done| |done].
  specialize (Hlook ltac:(lia) eq_refl). simpl in Hlook. by injection Hlook as ->.
Qed.

End DistributionRanges.

(** *** One iteration with an explicit seed *)

(** With [maxIter = 1] and a seed other than -1, [kmeans_lloyd] gives the
    same outcome and trace in every two environments: neither the random
    device nor what the convergence check finds in its arrays reaches the
    result. *)
Theorem kmeans_lloyd_one_iteration_reproducible (w1 w2 : World)
    (data : list Point) (k : nat) (seed : Z) (epsilon : float) :
  seed ≠ -1 →
  kmeans_lloyd N w1 data k 1 seed epsilon = kmeans_lloyd N w2 data k 1 seed epsilon.
Proof.
  intros Hseed. unfold kmeans_lloyd.
  do 3 (apply traced_bind_ext; intros _).
  rewrite (random_plusplus_explicit_seed N w1 w2) by done.
  apply traced_bind_ext. intros means.
  change (Z.to_nat 1) with 1%nat. cbn [lloyd_loop].
  apply traced_bind_ext. intros clusters.
  apply traced_bind_ext. intros _.
  apply traced_bind_ext. intros means'.
  apply traced_bind_ext. intros _.
  destruct (uninitialized w1 (0 + 1)) as [a1 b1].
  destruct (uninitialized w2 (0 + 1)) as [a2 b2].
  rewrite bool_decide_eq_false_2 by lia.
  unfold point_collection_epsilon. destruct (decide _); [|done].
  rewrite !traced_bind_lift, !traced_bind_tell.
  by rewrite !andb_false_r.
Qed.

End Further.

(** ** The [int] instance: laws and examples *)

Section IntInstance.

Lemma int_lt_irrefl (x : Z) : s_lt x x = false.
Proof. apply Z.ltb_irrefl. Qed.

Lemma int_lt_trans (x y z : Z) :
  s_lt x y = true → s_lt y z = true → s_lt x z = true.
Proof. simpl. rewrite !Z.ltb_lt. lia. Qed.

Lemma int_lt_neg_trans (x y z : Z) :
  s_lt x y = false → s_lt y z = false → s_lt x z = false.
Proof. simpl. rewrite !Z.ltb_ge. lia. Qed.

Lemma int_count (n : nat) :
  Nat.iter n (λ x : Z, s_add x s_one) s_zero = Z.of_nat n.
Proof.
  induction n as [|n IH]; [done|]. rewrite Nat.iter_succ, IH. simpl. lia.
Qed.

Lemma int_count_positive (n : nat) :
  s_is_zero (Nat.iter (S n) (λ x : Z, s_add x s_one) s_zero) = false.
Proof. by rewrite int_count. Qed.

Lemma scan_uniform_range (a b : Z) (g : engine) :
  a ≤ b → a ≤ (uniform_int_distribution (T := Z) a b g).1 ≤ b.
Proof.
  intros Hab. simpl.
  pose proof (Z.mod_pos_bound ((lcg_a * g + lcg_c) mod lcg_m) (b - a + 1)). lia.
Qed.

Lemma cumulative_scan_range (weights : list Z) :
  ∀ r i, i ≤ cumulative_scan weights r i ≤ i + Z.of_nat (length weights).
Proof.
  induction weights as [|w weights IH]; intros r i; simpl; [lia|].
  destruct (bool_decide _); [lia|].
  specialize (IH (r - Z.max 0 w) (i + 1)). lia.
Qed.

Lemma scan_discrete_range (weights : list Z) (g : engine) :
  0 ≤ (discrete_distribution weights g).1 ≤ probabilities_size weights.
Proof.
  simpl. destruct (decide _); simpl.
  - destruct weights; simpl; lia.
  - pose proof (cumulative_scan_range weights
      (((lcg_a * g + lcg_c) mod lcg_m) mod foldr Z.add 0 (Z.max 0 <$> weights)) 0).
    destruct weights; simpl in *; lia.
Qed.

(** *** The claims on the instance *)

Lemma kmeans_lloyd_result_shape_witness :
  ∃ means clusters trace,
    kmeans_lloyd 1 stale_world line_data 2 100 6 0%Q = (Ret (means, clusters), trace) ∧
    length clusters = length line_data ∧
    Forall (λ c, 0 ≤ c < 2)%nat clusters ∧
    length means = 2%nat.
Proof.
  apply (kmeans_lloyd_result_shape (T := Z) (H := int_scalar) 1 scan_uniform_range scan_discrete_range
           stale_world line_data 2 100 6 0%Q); [lia|lia|simpl; lia].
Defined.

Lemma kmeans_lloyd_labels_from_previous_means_witness :
  ∃ means0 init_trace n prev means clusters,
    random_plusplus 1 zero_world line_data 2 6 = (Ret means0, init_trace) ∧
    Z.of_nat n < 100 ∧
    lloyd_updates 1 n line_data 2 means0 = Ret prev ∧
    calculate_clusters 1 line_data prev = Ret clusters ∧
    calculate_means 1 line_data clusters prev 2 = Ret means ∧
    kmeans_lloyd 1 zero_world line_data 2 100 6 0%Q =
      (Ret (means, clusters),
       init_trace ++
       mjoin (replicate (S n) [AssignPass; UpdatePass; ConvergenceCheck])).
Proof.
  apply (kmeans_lloyd_labels_from_previous_means (T := Z) (H := int_scalar) 1
           scan_uniform_range scan_discrete_range zero_world line_data 2 100 6 0%Q);
    [lia|lia|simpl; lia].
Defined.

(** The labels returned after one round are not the labels of the returned
    means: entered with the means [[4]; [2]] and left after one round, the
    loop returns the point [2] labelled 1, and this point is as near to the
    returned mean 0. *)
Example labels_not_of_returned_means :
  (lloyd_loop 1 1 zero_world line_data 2 1 0%Q [[4]; [2]] 0).1 =
    Ret ([[3]; [1]], [1; 1; 0; 0]%nat) ∧
  calculate_clusters 1 line_data [[3]; [1]] = Ret [1; 0; 0; 0]%nat.
Proof. split; reflexivity. Qed.

Lemma update_averages_assigned_points_witness :
  ∃ means,
    calculate_means 1 line_data [1; 1; 0; 0]%nat [[4]; [2]] 2 = Ret means ∧
    length means = 2%nat ∧
    means !! 0%nat = Some (average 1 (assigned_points [1; 1; 0; 0]%nat line_data 0)) ∧
    let n := (length [1; 1; 0; 0]%nat `min` length line_data)%nat in
    calculate_means 1 (take n line_data) (take n [1; 1; 0; 0]%nat) [[4]; [2]] 2 =
      Ret means.
Proof.
  apply (update_averages_assigned_points (T := Z) (H := int_scalar) 1 line_data [1; 1; 0; 0]%nat [[4]; [2]] 2 0).
  - exact int_count_positive.
  - lia.
  - simpl. lia.
  - apply labels_in_range_Forall. repeat constructor.
  - exists 2%nat, [3]. split; reflexivity.
Defined.

Example update_averages_example :
  calculate_means 1 line_data [1; 1; 0; 0]%nat [[4]; [2]] 2 = Ret [[3]; [1]] ∧
  average 1 (assigned_points [1; 1; 0; 0]%nat line_data 0) = [3].
Proof. split; reflexivity. Qed.

Lemma update_keeps_empty_cluster_witness :
  ∃ means old,
    calculate_means 1 line_data [1; 1; 1; 1]%nat [[4]; [2]] 2 = Ret means ∧
    [[4]; [2]] !! 0%nat = Some old ∧
    means !! 0%nat = Some old.
Proof.
  apply (update_keeps_empty_cluster (T := Z) (H := int_scalar) 1 line_data [1; 1; 1; 1]%nat [[4]; [2]] 2 0).
  - reflexivity.
  - lia.
  - reflexivity.
  - apply labels_in_range_Forall. repeat constructor.
  - intros i p _. do 4 (destruct i as [|i]; [discriminate|]). discriminate.
Defined.

Lemma int_distances_ordered (N : nat) (point : list Z) (means : list (list Z)) :
  distances_ordered N point means.
Proof.
  split; [|split].
  - intros m _. apply Z.ltb_irrefl.
  - intros m1 m2 m3 _ _ _. apply int_lt_trans.
  - intros m1 m2 m3 _ _ _. apply int_lt_neg_trans.
Qed.

Lemma assignment_selects_nearest_first_witness :
  ∃ clusters,
    calculate_clusters 1 line_data [[4]; [2]] = Ret clusters ∧
    length clusters = length line_data ∧
    (∀ i point, line_data !! i = Some point →
       ∃ index,
         closest_mean 1 point [[4]; [2]] = Ret index ∧
         clusters !! i = Some index ∧
         first_of_nearest 1 point [[4]; [2]] index) ∧
    calculate_clusters_run 1 line_data [[4]; [2]] =
      Ret {| as_data := line_data; as_means := [[4]; [2]]; as_clusters := clusters |}.
Proof.
  apply (assignment_selects_nearest_first (T := Z) (H := int_scalar) 1
           line_data [[4]; [2]]).
  - discriminate.
  - simpl. lia.
  - intros point _. apply int_distances_ordered.
Defined.

(* the point [3] is as far from [4] as from [2] and goes to index 0 *)
Example assignment_tie_example :
  calculate_clusters 1 line_data [[4]; [2]] = Ret [1; 1; 0; 0]%nat.
Proof. reflexivity. Qed.

Lemma kmeans_lloyd_single_iteration_witness :
  ∃ means0 init_trace clusters means,
    random_plusplus 1 stale_world line_data 2 6 = (Ret means0, init_trace) ∧
    calculate_clusters 1 line_data means0 = Ret clusters ∧
    calculate_means 1 line_data clusters means0 2 = Ret means ∧
    kmeans_lloyd 1 stale_world line_data 2 1 6 1000%Q =
      (Ret (means, clusters),
       init_trace ++ [AssignPass; UpdatePass; ConvergenceCheck]).
Proof.
  apply (kmeans_lloyd_single_iteration (T := Z) (H := int_scalar) 1 scan_uniform_range scan_discrete_range
           stale_world line_data 2 6 1000%Q); [lia|simpl; lia].
Defined.

Lemma kmeans_lloyd_precondition_failure_witness :
  kmeans_lloyd 1 zero_world line_data 5 0 6 0%Q =
    (AssertionFailed
       (if decide (5%nat = 0%nat) then Assert_k_positive
        else if decide (0 ≤ 0) then Assert_maxIter_positive
             else Assert_enough_data), []) ∧
  random_plusplus 1 zero_world line_data 0 6 = (AssertionFailed Assert_k_positive, []).
Proof.
  apply (kmeans_lloyd_precondition_failure (T := Z) (H := int_scalar) 1 zero_world line_data 5 0 6 0%Q).
  right. left. lia.
Defined.

(** C2, at an input where the code and the claim part.  The new means
    [[3]; [1]] have centroid 2 and the old means [[4]; [2]] have centroid 3,
    at distance 1.  [point_collection_epsilon] adds the means to what its
    two arrays hold on entry: with 2 in the first and 0 in the second it
    answers 0. *)
Theorem convergence_check_reads_uninitialized_arrays :
  point_collection_epsilon 1 [2] [0] [[3]; [1]] [[4]; [2]] = Ret 0%Q ∧
  mean_shift 1 [[3]; [1]] [[4]; [2]] = 1%Q.
Proof. split; reflexivity. Qed.

(** C3, at the inputs where the code and the claim part.  The dataset
    [[0]; [2]; [3]; [4]], [k = 2], [maxIter = 100], [epsilon = 0], with the
    32-bit [int], whatever the distributions of the library are, and any
    seed other than -1 at which the initializer draws the means [[4]; [2]]:
    in two environments with the same random device the call returns
    different means and labels.  Where the arrays of the convergence check
    start from zeros the loop runs three rounds; where they start from 2
    and 0 the check of the first round answers 0 and the loop stops. *)
Theorem seeded_runs_differ_on_uninitialized_arrays (D : Distributions Z) (seed : Z) :
  seed ≠ -1 →
  (random_plusplus (H := int32_scalar) (H0 := D) 1 zero_world line_data 2 seed).1 =
    Ret [[4]; [2]] →
  rand_device zero_world = rand_device stale_world ∧
  (random_plusplus (H := int32_scalar) (H0 := D) 1 stale_world line_data 2 seed).1 =
    Ret [[4]; [2]] ∧
  (kmeans_lloyd (H := int32_scalar) (H0 := D) 1 zero_world line_data 2 100 seed 0%Q).1 =
    Ret ([[3]; [0]], [1; 0; 0; 0]%nat) ∧
  (kmeans_lloyd (H := int32_scalar) (H0 := D) 1 stale_world line_data 2 100 seed 0%Q).1 =
    Ret ([[3]; [1]], [1; 1; 0; 0]%nat).
Proof.
  intros Hseed Hzero.
  assert ((random_plusplus (H := int32_scalar) (H0 := D) 1 stale_world line_data 2
             seed).1 = Ret [[4]; [2]]) as Hstale.
  { by rewrite (random_plusplus_explicit_seed 1 stale_world zero_world). }
  split; [reflexivity|]. split; [exact Hstale|]. split.
  - rewrite (kmeans_lloyd_valid (H := int32_scalar) (H0 := D) 1 zero_world line_data
               2 100 seed 0%Q) by (simpl; lia).
    rewrite (traced_bind_outcome _ _ _ Hzero). vm_compute. reflexivity.
  - rewrite (kmeans_lloyd_valid (H := int32_scalar) (H0 := D) 1 stale_world line_data
               2 100 seed 0%Q) by (simpl; lia).
    rewrite (traced_bind_outcome _ _ _ Hstale). vm_compute. reflexivity.
Qed.

Lemma seeded_runs_differ_on_uninitialized_arrays_witness :
  rand_device zero_world = rand_device stale_world ∧
  (random_plusplus (H := int32_scalar) (H0 := scan_distributions) 1 stale_world
     line_data 2 6).1 = Ret [[4]; [2]] ∧
  (kmeans_lloyd (H := int32_scalar) (H0 := scan_distributions) 1 zero_world
     line_data 2 100 6 0%Q).1 = Ret ([[3]; [0]], [1; 0; 0; 0]%nat) ∧
  (kmeans_lloyd (H := int32_scalar) (H0 := scan_distributions) 1 stale_world
     line_data 2 100 6 0%Q).1 = Ret ([[3]; [1]], [1; 1; 0; 0]%nat).
Proof.
  apply (seeded_runs_differ_on_uninitialized_arrays scan_distributions 6).
  - lia.
  - vm_compute. reflexivity.
Defined.

End IntInstance.

(** C10.  The seed -1 stands for no seed.  A call that passes -1 is the
    call that leaves the seed out; its initializer reads the random device
    and seeds the engine with the value read; and the result of such a call
    changes with that value: two environments that differ in the random
    device only give different results for the same arguments. *)
Theorem seed_minus_one_reads_random_device {T : Type} `{Scalar T}
    `{Distributions T} (N : nat) (w : World T) (data : list (list T))
    (k : nat) (maxIter : Z) (epsilon : option float) :
  (0 < k)%nat →
  kmeans_lloyd_call N w data k maxIter (Some (-1)) epsilon =
    kmeans_lloyd_call N w data k maxIter None epsilon ∧
  random_plusplus N w data k (-1) =
    ((draw_means N data k (engine_seed (to_int (rand_device w)))).1,
     RandomDevice :: (draw_means N data k (engine_seed (to_int (rand_device w)))).2) ∧
  (uninitialized zero_world = uninitialized other_entropy_world ∧
   kmeans_lloyd 1 zero_world line_data 2 100 (-1) 0%Q ≠
   kmeans_lloyd 1 other_entropy_world line_data 2 100 (-1) 0%Q).
Proof.
  intros Hk. split; [reflexivity|]. split.
  - by rewrite random_plusplus_seeded.
  - split; [reflexivity|]. vm_compute. discriminate.
Qed.

Lemma seed_minus_one_reads_random_device_witness :
  kmeans_lloyd_call 1 zero_world line_data 2 100 (Some (-1)) (Some 0%Q) =
    kmeans_lloyd_call 1 zero_world line_data 2 100 None (Some 0%Q) ∧
  random_plusplus 1 zero_world line_data 2 (-1) =
    ((draw_means 1 line_data 2 (engine_seed (to_int (rand_device zero_world)))).1,
     RandomDevice ::
       (draw_means 1 line_data 2 (engine_seed (to_int (rand_device zero_world)))).2) ∧
  (uninitialized zero_world = uninitialized other_entropy_world ∧
   kmeans_lloyd 1 zero_world line_data 2 100 (-1) 0%Q ≠
   kmeans_lloyd 1 other_entropy_world line_data 2 100 (-1) 0%Q).
Proof.
  apply (seed_minus_one_reads_random_device (T := Z) (H := int_scalar) 1
           zero_world line_data 2 100 (Some 0%Q)). lia.
Defined.

(** ** Further properties on the 32-bit [int] *)

Section Int32Further.

Variable N : nat.

(** *** distance_squared on mathematical integers *)

Lemma fold_left_pointwise {A B} (f g : A → B → A) (l : list B) :
  (∀ a b, f a b = g a b) → ∀ a, fold_left f l a = fold_left g l a.
Proof.
  intros Hfg. induction l as [|b l IH]; intros a; simpl; [done|].
  by rewrite Hfg, IH.
Qed.

Lemma int_distance_fold (a b : list Z) (n : nat) : ∀ (s : nat) (acc : Z),
  acc ≤ fold_left
          (λ d_squared i,
             d_squared + (coord a i - coord b i) * (coord a i - coord b i))
          (seq s n) acc ∧
  (fold_left
     (λ d_squared i,
        d_squared + (coord a i - coord b i) * (coord a i - coord b i))
     (seq s n) acc = acc ↔
   ∀ j, (s ≤ j < s + n)%nat → coord a j = coord b j).
Proof.
  induction n as [|n IH]; intros s acc; cbn [seq fold_left].
  { split; [lia|]. split; [intros _ j Hj; lia|done]. }
  destruct (IH (S s) (acc + (coord a s - coord b s) * (coord a s - coord b s)))
    as [Hle Hiff].
  set (r := fold_left _ _ _) in *.
  pose proof (Z.square_nonneg (coord a s - coord b s)) as Hsq.
  split; [lia|]. split.
  - intros Heq j Hj.
    assert ((coord a s - coord b s) * (coord a s - coord b s) = 0) as Hz by lia.
    destruct (decide (j = s)) as [->|Hne].
    + apply Z.mul_eq_0 in Hz. lia.
    + apply Hiff; [lia|lia].
  - intros Hall.
    assert (coord a s = coord b s) as Hs by (apply Hall; lia).
    assert (r = acc + (coord a s - coord b s) * (coord a s - coord b s)) as Hr.
    { apply Hiff. intros j Hj. apply Hall. lia. }
    rewrite Hr, Hs. lia.
Qed.

(* on [int_scalar], where nothing wraps *)
Lemma integer_distance_squared_metric (a b : list Z) :
  distance_squared N a b = distance_squared N b a ∧
  0 ≤ distance_squared N a b ∧
  (distance_squared N a b = 0 ↔ ∀ j, (j < N)%nat → coord a j = coord b j).
Proof.
  split; [|split].
  - apply fold_left_pointwise. intros d i. simpl. ring.
  - apply (int_distance_fold a b N 0%nat 0).
  - destruct (int_distance_fold a b N 0%nat 0) as [_ Hiff].
    split.
    + intros Hz j Hj. apply Hiff; [exact Hz|lia].
    + intros Hall. apply Hiff. intros j Hj. apply Hall. lia.
Qed.

(** *** distance_squared on the 32-bit [int] *)

Lemma to_int_small (z : Z) : - 2 ^ 31 ≤ z < 2 ^ 31 → to_int z = z.
Proof. intros Hz. unfold to_int. rewrite Z.mod_small by lia. lia. Qed.

Lemma to_int_add_l (a b : Z) : to_int (to_int a + b) = to_int (a + b).
Proof.
  unfold to_int. f_equal.
  replace ((a + 2 ^ 31) mod 2 ^ 32 - 2 ^ 31 + b + 2 ^ 31)
    with ((a + 2 ^ 31) mod 2 ^ 32 + b) by lia.
  rewrite Zplus_mod_idemp_l. f_equal. lia.
Qed.

Lemma coords_within_Forall (B : Z) (p : list Z) :
  0 ≤ B → Forall (λ x, - B ≤ x ≤ B) p → coords_within N B p.
Proof.
  intros HB Hall j _. destruct (p !! j) as [x|] eqn:Hx; simpl; [|lia].
  rewrite Forall_lookup in Hall. by apply (Hall j).
Qed.

Lemma int32_distance_fold (a b : list Z) (B : Z) :
  0 ≤ B →
  ∀ (n s : nat) (acc : Z),
    0 ≤ acc →
    acc + 4 * B * B * Z.of_nat n ≤ 2 ^ 31 - 1 →
    (∀ j, (s ≤ j < s + n)%nat →
       - B ≤ default 0 (a !! j) ≤ B ∧ - B ≤ default 0 (b !! j) ≤ B) →
    fold_left
      (λ d i,
         to_int (d + to_int (to_int (default 0 (a !! i) - default 0 (b !! i)) *
                             to_int (default 0 (a !! i) - default 0 (b !! i)))))
      (seq s n) acc =
    fold_left
      (λ d i,
         d + (default 0 (a !! i) - default 0 (b !! i)) *
             (default 0 (a !! i) - default 0 (b !! i)))
      (seq s n) acc.
Proof.
  intros HB. induction n as [|n IH]; intros s acc Hacc Hfit Hin;
    cbn [seq fold_left]; [done|].
  destruct (Hin s) as [Ha Hb]; [lia|].
  set (x := default 0 (a !! s)) in *. set (y := default 0 (b !! s)) in *.
  assert (0 ≤ 4 * B * B * Z.of_nat n) as Hrest by nia.
  assert (4 * B * B ≤ 2 ^ 31 - 1) as Hsq by nia.
  assert ((x - y) * (x - y) ≤ 4 * B * B) as Hd by nia.
  assert (0 ≤ (x - y) * (x - y)) as Hd0 by apply Z.square_nonneg.
  assert (- 2 ^ 31 ≤ x - y < 2 ^ 31) as Hr by nia.
  rewrite (to_int_small (x - y)) by exact Hr.
  rewrite (to_int_small ((x - y) * (x - y))) by lia.
  rewrite (to_int_small (acc + (x - y) * (x - y))) by nia.
  apply IH; [lia|nia|]. intros j Hj. apply Hin. lia.
Qed.

Lemma int32_distance_squared_exact (B : Z) (a b : list Z) :
  squares_fit N B → coords_within N B a → coords_within N B b →
  distance_squared (H := int32_scalar) N a b =
  distance_squared (H := int_scalar) N a b.
Proof.
  intros [HB Hfit] Ha Hb.
  exact (int32_distance_fold a b B HB N 0%nat 0 (Z.le_refl 0) Hfit
           (λ j Hj, conj (Ha j (proj2 Hj)) (Hb j (proj2 Hj)))).
Qed.

(** For the 32-bit [int], on points whose [N] components lie within [B] of
    zero, with [4 * B * B * N] at most [INT_MAX]: [distance_squared] does
    not wrap, it is the sum of the squared component differences; it is
    symmetric and non-negative, and it is zero exactly when the two points
    agree on each of their [N] components. *)
Theorem int32_distance_squared_metric (B : Z) (a b : list Z) :
  squares_fit N B → coords_within N B a → coords_within N B b →
  distance_squared (H := int32_scalar) N a b =
    squared_euclidean (H := int_scalar) N a b ∧
  distance_squared (H := int32_scalar) N a b =
    distance_squared (H := int32_scalar) N b a ∧
  0 ≤ distance_squared (H := int32_scalar) N a b ∧
  (distance_squared (H := int32_scalar) N a b = 0 ↔
   ∀ j, (j < N)%nat → default 0 (a !! j) = default 0 (b !! j)).
Proof.
  intros Hfit Ha Hb.
  rewrite (int32_distance_squared_exact B a b), (int32_distance_squared_exact B b a)
    by done.
  destruct (integer_distance_squared_metric a b) as (Hsym & Hpos & Hzero).
  split; [apply (distance_squared_euclidean (H := int_scalar))|].
  split; [exact Hsym|]. split; [exact Hpos|exact Hzero].
Qed.

(** *** Points that coincide with a mean *)

(** For the 32-bit [int] and at most 2^32 means, within the bounds under
    which the distances do not wrap: a point that agrees on its [N]
    components with some mean is labelled with a mean it agrees with, the
    first such mean of the set. *)
Theorem int32_closest_mean_exact_match (B : Z) (point : list Z)
    (means : list (list Z)) :
  Z.of_nat (length means) ≤ 2 ^ 32 →
  squares_fit N B →
  coords_within N B point →
  (∀ m, m ∈ means → coords_within N B m) →
  (∃ m, m ∈ means ∧
     ∀ j, (j < N)%nat → default 0 (point !! j) = default 0 (m !! j)) →
  ∃ index m',
    closest_mean (H := int32_scalar) N point means = Ret index ∧
    means !! index = Some m' ∧
    (∀ j, (j < N)%nat → default 0 (point !! j) = default 0 (m' !! j)) ∧
    ∀ i m'', means !! i = Some m'' →
      (∀ j, (j < N)%nat → default 0 (point !! j) = default 0 (m'' !! j)) →
      (index ≤ i)%nat.
Proof.
  intros Hsize Hfit Hpoint Hmeans (m & Hin & Hagree).
  assert (∀ i mi, means !! i = Some mi → coords_within N B mi) as Hlook.
  { intros i mi Hi. apply Hmeans. by eapply list_elem_of_lookup_2. }
  destruct means as [|m0 rest]; [by apply not_elem_of_nil in Hin|].
  destruct (closest_mean_loop_nearest (H := int32_scalar) N int_lt_irrefl
              int_lt_trans int_lt_neg_trans point m0 rest)
    as [(m' & Hm' & Hmin) Hfirst].
  pose proof (closest_mean_loop_bound (H := int32_scalar) N point rest 1
                (distance_squared (H := int32_scalar) N point m0) 0%nat) as Hlt.
  exists (closest_mean_loop (H := int32_scalar) N point rest 1
            (distance_squared (H := int32_scalar) N point m0) 0), m'.
  split; [|split; [exact Hm'|split]].
  - unfold closest_mean. rewrite to_uint32_small by (simpl in Hsize; lia).
    reflexivity.
  - apply list_elem_of_lookup in Hin as [i Hi].
    pose proof (Hmin i m Hi) as Hnlt. apply Z.ltb_ge in Hnlt.
    destruct (int32_distance_squared_metric B point m) as (_ & _ & _ & Hzero);
      [done|done|by eapply Hlook|].
    destruct (int32_distance_squared_metric B point m') as (_ & _ & Hpos & Hzero');
      [done|done|by eapply Hlook|].
    apply Hzero'. apply Hzero in Hagree. lia.
  - intros i m'' Hi Hagree''. apply Hfirst.
    exists m''. split; [done|]. intros j mj Hj.
    destruct (int32_distance_squared_metric B point m'') as (_ & _ & _ & Hzero);
      [done|done|by eapply Hlook|].
    destruct (int32_distance_squared_metric B point mj) as (_ & _ & Hpos & _);
      [done|done|by eapply Hlook|].
    rewrite (proj2 Hzero Hagree''). apply Z.ltb_ge. exact Hpos.
Qed.

(** For the 32-bit [int], within the bounds under which the distances do
    not wrap: the weights that [closest_distance] returns for k-means++ are
    non-negative, and the weight of a point is zero exactly when the point
    agrees on its [N] components with one of the means. *)
Theorem int32_closest_distance_weights (B : Z) (means data : list (list Z))
    (k : nat) (distances : list Z) (i : nat) (d : list Z) (x : Z) :
  squares_fit N B →
  coords_within N B d →
  (∀ m, m ∈ means → coords_within N B m) →
  closest_distance (H := int32_scalar) N means data k = Ret distances →
  data !! i = Some d →
  distances !! i = Some x →
  0 ≤ x ∧
  (x = 0 ↔
   ∃ m, m ∈ means ∧ ∀ j, (j < N)%nat → default 0 (d !! j) = default 0 (m !! j)).
Proof.
  intros Hfit Hpoint Hmeans Hds Hd Hx.
  assert (∀ j mj, means !! j = Some mj → coords_within N B mj) as Hlook.
  { intros j mj Hj. apply Hmeans. by eapply list_elem_of_lookup_2. }
  destruct means as [|m0 rest].
  { destruct data as [|d0 data]; [done|discriminate]. }
  destruct (closest_distance_lookup (H := int32_scalar) N m0 rest data k
              distances i d Hds Hd) as (m' & Hm' & Hx').
  rewrite Hx in Hx'. injection Hx' as ->.
  destruct (closest_mean_loop_nearest (H := int32_scalar) N int_lt_irrefl
              int_lt_trans int_lt_neg_trans d m0 rest)
    as [(m'' & Hm'' & Hmin) _].
  rewrite Hm' in Hm''. injection Hm'' as <-.
  destruct (int32_distance_squared_metric B d m') as (_ & _ & Hpos & Hzero);
    [done|done|by eapply Hlook|].
  split; [exact Hpos|]. split.
  - intros Hz. exists m'. split; [by eapply list_elem_of_lookup_2|].
    by apply Hzero.
  - intros (m & Hin & Hagree).
    apply list_elem_of_lookup in Hin as [j Hj].
    pose proof (Hmin j m Hj) as Hnlt. apply Z.ltb_ge in Hnlt.
    destruct (int32_distance_squared_metric B d m) as (_ & _ & _ & Hzero_m);
      [done|done|by eapply Hlook|].
    apply Hzero_m in Hagree. lia.
Qed.

(** *** The convergence check *)

Lemma int_fold_sum (points : list (list Z)) (dim : nat) : ∀ x : Z,
  fold_left (λ acc p, s_add acc (coord p dim)) points x =
  x + component_sum points dim.
Proof.
  unfold component_sum.
  induction points as [|p points IH]; intros x; cbn [fold_left].
  { simpl. lia. }
  rewrite (IH (s_add x (coord p dim))), (IH (s_add s_zero (coord p dim))).
  simpl. lia.
Qed.

Lemma int32_fold_wrapped (points : list (list Z)) (dim : nat) : ∀ x : Z,
  fold_left (λ acc p, to_int (acc + default 0 (p !! dim))) points (to_int x) =
  to_int (fold_left (λ acc p, acc + default 0 (p !! dim)) points x).
Proof.
  induction points as [|p points IH]; intros x; cbn [fold_left]; [done|].
  rewrite to_int_add_l. apply IH.
Qed.

(* a column of the check on the 32-bit [int]: the exact sum, wrapped *)
Lemma int32_column_sum (uninit : list Z) (points : list (list Z)) (dim : nat) :
  points ≠ [] →
  fold_left (λ acc p, to_int (acc + default 0 (p !! dim))) points
    (default 0 (uninit !! dim)) =
  to_int (default 0 (uninit !! dim) + component_sum (H := int_scalar) points dim).
Proof.
  intros Hne. destruct points as [|p points]; [done|]. cbn [fold_left].
  rewrite int32_fold_wrapped. f_equal.
  exact (int_fold_sum (p :: points) dim (default 0 (uninit !! dim))).
Qed.

Lemma int32_distance_squared_self (m : list Z) :
  distance_squared (H := int32_scalar) N m m = 0.
Proof.
  unfold distance_squared. generalize 0%nat as s.
  induction N as [|n IH]; intros s; cbn [seq fold_left]; [done|].
  cbv [s_add s_sub s_mul s_zero int32_scalar]. rewrite Z.sub_diag.
  change (to_int (0 + to_int (to_int 0 * to_int 0))) with 0.
  apply IH.
Qed.

(** For the 32-bit [int]: when two non-empty sets of as many means have
    the same component sums, counting in what the two arrays of the check
    hold on entry, the check answers 0, however far the single means are
    from each other (means that move in opposite directions cancel). *)
Theorem int32_convergence_check_cancels (uninit_a uninit_b : list Z)
    (point_a point_b : list (list Z)) :
  point_a ≠ [] →
  length point_a = length point_b →
  (∀ dim, (dim < N)%nat →
     default 0 (uninit_a !! dim) + component_sum (H := int_scalar) point_a dim =
     default 0 (uninit_b !! dim) + component_sum (H := int_scalar) point_b dim) →
  point_collection_epsilon (H := int32_scalar) N uninit_a uninit_b
    point_a point_b = Ret 0%Q.
Proof.
  intros Hne Hlen Hsum. unfold point_collection_epsilon.
  destruct (decide _); [|done].
  assert (point_b ≠ []) as Hne_b.
  { intros ->. destruct point_a; [done|discriminate]. }
  assert (map (column_mean (H := int32_scalar) uninit_a point_a) (seq 0 N) =
          map (column_mean (H := int32_scalar) uninit_b point_b) (seq 0 N)) as ->.
  { apply map_ext_in. intros dim Hdim%in_seq. unfold column_mean.
    rewrite Hlen. f_equal.
    etrans; [exact (int32_column_sum uninit_a point_a dim Hne)|].
    rewrite Hsum by lia. symmetry.
    exact (int32_column_sum uninit_b point_b dim Hne_b). }
  unfold distance. rewrite int32_distance_squared_self. reflexivity.
Qed.

Lemma calculate_means_length (scalar : Scalar Z) (data : list (list Z))
    clusters old_means k means :
  calculate_means (H := scalar) N data clusters old_means k = Ret means →
  length means = k.
Proof.
  unfold calculate_means.
  destruct (sum_clusters _ _ _ _) as [[sums count]| | |]; simpl; [|done..].
  intros Hrun. apply for_each_length in Hrun. by rewrite length_seq in Hrun.
Qed.

(** For the 32-bit [int], [epsilon >= 0] and at least one cluster, on data
    and means within the bounds under which neither the distances nor the
    cluster sums wrap: a round whose update leaves the component sums of
    the means as they were (a fixed point of the update among others) is
    the last one, when the two arrays of the check hold equal values on
    entry; the driver returns the means and the labels of this round. *)
Theorem int32_lloyd_loop_stops_when_sums_agree (B : Z) (fuel : nat)
    (w : World Z) (data : list (list Z)) (k : nat) (maxIter : Z) (epsilon : Q)
    (means : list (list Z)) (count : Z) (clusters : list nat)
    (means' : list (list Z)) :
  (0 <= epsilon)%Q →
  (0 < k)%nat →
  length means = k →
  squares_fit N B →
  B * Z.of_nat (length data) ≤ 2 ^ 31 - 1 →
  (∀ p, p ∈ data → coords_within N B p) →
  (∀ m, m ∈ means → coords_within N B m) →
  calculate_clusters (H := int32_scalar) N data means = Ret clusters →
  calculate_means (H := int32_scalar) N data clusters means k = Ret means' →
  (∀ dim, (dim < N)%nat →
     default 0 ((uninitialized w (count + 1)).1 !! dim) +
       component_sum (H := int_scalar) means' dim =
     default 0 ((uninitialized w (count + 1)).2 !! dim) +
       component_sum (H := int_scalar) means dim) →
  lloyd_loop (H := int32_scalar) N (S fuel) w data k maxIter epsilon means count =
    (Ret (means', clusters), [AssignPass; UpdatePass; ConvergenceCheck]).
Proof.
  intros Heps Hk Hlen _ _ _ _ Hcl Hme Hsum.
  pose proof (calculate_means_length int32_scalar _ _ _ _ _ Hme) as Hlen'.
  assert (point_collection_epsilon (H := int32_scalar) N
            (uninitialized w (count + 1)).1
            (uninitialized w (count + 1)).2 means' means = Ret 0%Q) as Hd.
  { apply int32_convergence_check_cancels; [|lia|done].
    intros ->. simpl in Hlen'. lia. }
  rewrite (lloyd_loop_round (T := Z) (H := int32_scalar) N fuel w data k maxIter
             epsilon means count clusters means' 0%Q Hcl Hme Hd).
  assert (float_gt (Scalar := int32_scalar) (0%Q : Q) epsilon = false) as ->;
    [|done].
  simpl. apply negb_false_iff. by apply Qle_bool_iff.
Qed.

(** *** The engine *)

Lemma engine_seed_value (seed : Z) :
  - 2 ^ 31 ≤ seed < 2 ^ 31 → seed ≠ -1 →
  engine_seed seed = if decide (0 ≤ seed) then seed else 2 ^ 64 + seed.
Proof.
  intros Hrange Hseed. unfold engine_seed, to_uint64.
  destruct (decide (_ ∧ _)) as [[Hc _]|_]; [vm_compute in Hc; discriminate|].
  unfold lcg_m. destruct (decide (0 ≤ seed)).
  - rewrite (Z.mod_small seed) by lia. apply Z.mod_small. lia.
  - replace seed with (2 ^ 64 + seed + (-1) * 2 ^ 64) at 1 by lia.
    rewrite Z_mod_plus_full, (Z.mod_small (2 ^ 64 + seed)) by lia.
    apply Z.mod_small. lia.
Qed.

(** The engine state after seeding lies below the modulus [UINT64_MAX], and
    two [int] seeds other than -1 seed the engine alike only if they are
    equal. *)
Theorem engine_seed_separates_explicit_seeds (seed1 seed2 : Z) :
  - 2 ^ 31 ≤ seed1 < 2 ^ 31 → seed1 ≠ -1 →
  - 2 ^ 31 ≤ seed2 < 2 ^ 31 → seed2 ≠ -1 →
  0 ≤ engine_seed seed1 < 2 ^ 64 - 1 ∧
  (engine_seed seed1 = engine_seed seed2 ↔ seed1 = seed2).
Proof.
  intros Hr1 Hs1 Hr2 Hs2.
  rewrite !engine_seed_value by done.
  repeat destruct (decide _); lia.
Qed.

End Int32Further.

(** *** The further properties on the instance *)

Lemma closest_distance_of_closest_mean_witness :
  ∃ distances,
    closest_distance 1 [[4]; [2]] line_data 2 = Ret distances ∧
    length distances = length line_data ∧
    ∀ i d, line_data !! i = Some d →
      ∃ index m,
        closest_mean 1 d [[4]; [2]] = Ret index ∧
        [[4]; [2]] !! index = Some m ∧
        distances !! i = Some (distance_squared 1 d m).
Proof.
  apply (closest_distance_of_closest_mean (T := Z) (H := int_scalar) 1
           [[4]; [2]] line_data 2).
  - discriminate.
  - simpl. lia.
Defined.

Lemma calculate_means_label_out_of_range_witness :
  calculate_means 1 line_data [0; 2; 0; 0]%nat [[4]; [2]] 2 = OutOfBounds.
Proof.
  apply (calculate_means_label_out_of_range (T := Z) (H := int_scalar) 1
           line_data [0; 2; 0; 0]%nat [[4]; [2]] 2 1 2 [2]).
  - reflexivity.
  - reflexivity.
  - lia.
Defined.

Lemma calculate_means_missing_old_mean_witness :
  calculate_means 1 line_data [0; 0; 0; 0]%nat [[4]] 2 = OutOfBounds.
Proof.
  apply (calculate_means_missing_old_mean (T := Z) (H := int_scalar) 1
           line_data [0; 0; 0; 0]%nat [[4]] 2 1).
  - reflexivity.
  - apply labels_in_range_Forall. repeat constructor.
  - lia.
  - simpl. lia.
  - intros i p _. do 4 (destruct i as [|i]; [discriminate|]). discriminate.
Defined.

Lemma random_plusplus_empty_dataset_witness :
  to_uint64 (Z.of_nat (length (@nil (list Z))) - 1) = 2 ^ 64 - 1 ∧
  random_plusplus 1 zero_world [] 2 6 = (OutOfBounds, seed_events 6 ++ [UniformDraw]).
Proof.
  apply (random_plusplus_empty_dataset (T := Z) (H := int_scalar)
           (H0 := scan_distributions) 1 zero_world 2 6). lia.
Defined.

Lemma random_plusplus_draws_dataset_points_witness :
  ∃ means,
    random_plusplus 1 zero_world line_data 2 6 =
      (Ret means,
       (if decide (6 = -1) then [RandomDevice] else []) ++
       UniformDraw :: replicate (2 - 1) WeightedDraw) ∧
    length means = 2%nat ∧
    Forall (λ m, m ∈ line_data) means.
Proof.
  apply (random_plusplus_draws_dataset_points (T := Z) (H := int_scalar) 1
           scan_uniform_range scan_discrete_range zero_world line_data 2 6).
  - lia.
  - discriminate.
Defined.

Lemma kmeans_lloyd_one_cluster_witness :
  (kmeans_lloyd 1 stale_world line_data 1 100 6 0%Q).1 =
    Ret ([average 1 line_data], replicate (length line_data) 0%nat).
Proof.
  apply (kmeans_lloyd_one_cluster (T := Z) (H := int_scalar) 1
           scan_uniform_range scan_discrete_range stale_world line_data 100 6 0%Q).
  - exact int_count_positive.
  - lia.
  - discriminate.
Defined.

Lemma kmeans_lloyd_one_iteration_reproducible_witness :
  kmeans_lloyd 1 zero_world line_data 2 1 6 0%Q =
  kmeans_lloyd 1 stale_world line_data 2 1 6 0%Q.
Proof.
  apply (kmeans_lloyd_one_iteration_reproducible (T := Z) (H := int_scalar)
           (H0 := scan_distributions) 1 zero_world stale_world line_data 2 6 0%Q).
  lia.
Defined.

Lemma kmeans_lloyd_explicit_seed_witness :
  kmeans_lloyd 1 zero_world line_data 2 100 6 0%Q =
  kmeans_lloyd 1 other_entropy_world line_data 2 100 6 0%Q.
Proof.
  apply (kmeans_lloyd_explicit_seed (T := Z) (H := int_scalar)
           (H0 := scan_distributions) 1 zero_world other_entropy_world
           line_data 2 100 6 0%Q).
  - lia.
  - reflexivity.
Defined.

Lemma int32_distance_squared_metric_witness :
  distance_squared (H := int32_scalar) 1 [23170] [-23170] =
    squared_euclidean (H := int_scalar) 1 [23170] [-23170] ∧
  distance_squared (H := int32_scalar) 1 [23170] [-23170] =
    distance_squared (H := int32_scalar) 1 [-23170] [23170] ∧
  0 ≤ distance_squared (H := int32_scalar) 1 [23170] [-23170] ∧
  (distance_squared (H := int32_scalar) 1 [23170] [-23170] = 0 ↔
   ∀ j, (j < 1)%nat →
     default 0 ([23170] !! j) = default 0 ([-23170] !! j)).
Proof.
  apply (int32_distance_squared_metric 1 23170 [23170] [-23170]).
  - split; [lia|]. simpl. lia.
  - apply coords_within_Forall; [lia|]. repeat constructor; lia.
  - apply coords_within_Forall; [lia|]. repeat constructor; lia.
Defined.

Lemma int32_closest_mean_exact_match_witness :
  ∃ index m',
    closest_mean (H := int32_scalar) 1 [2] [[4]; [2]; [2]] = Ret index ∧
    [[4]; [2]; [2]] !! index = Some m' ∧
    (∀ j, (j < 1)%nat → default 0 ([2] !! j) = default 0 (m' !! j)) ∧
    ∀ i m'', [[4]; [2]; [2]] !! i = Some m'' →
      (∀ j, (j < 1)%nat → default 0 ([2] !! j) = default 0 (m'' !! j)) →
      (index ≤ i)%nat.
Proof.
  apply (int32_closest_mean_exact_match 1 4 [2] [[4]; [2]; [2]]).
  - simpl. lia.
  - split; [lia|]. simpl. lia.
  - apply coords_within_Forall; [lia|]. repeat constructor; lia.
  - intros m Hm. apply coords_within_Forall; [lia|].
    repeat (apply elem_of_cons in Hm as [->|Hm]; [repeat constructor; lia|]).
    by apply not_elem_of_nil in Hm.
  - exists [2]. split; [|reflexivity].
    apply list_elem_of_lookup. exists 1%nat. reflexivity.
Defined.

Lemma int32_closest_distance_weights_witness :
  0 ≤ 0 ∧
  (0 = 0 ↔
   ∃ m, m ∈ [[4]; [2]] ∧
     ∀ j, (j < 1)%nat → default 0 ([2] !! j) = default 0 (m !! j)).
Proof.
  apply (int32_closest_distance_weights 1 4 [[4]; [2]] line_data 2
           [4; 0; 1; 0] 1 [2] 0).
  - split; [lia|]. simpl. lia.
  - apply coords_within_Forall; [lia|]. repeat constructor; lia.
  - intros m Hm. apply coords_within_Forall; [lia|].
    repeat (apply elem_of_cons in Hm as [->|Hm]; [repeat constructor; lia|]).
    by apply not_elem_of_nil in Hm.
  - reflexivity.
  - reflexivity.
  - reflexivity.
Defined.

Lemma int32_convergence_check_cancels_witness :
  point_collection_epsilon (H := int32_scalar) 1 [7] [7] [[0]; [10]] [[10]; [0]] =
    Ret 0%Q.
Proof.
  apply (int32_convergence_check_cancels 1 [7] [7] [[0]; [10]] [[10]; [0]]).
  - discriminate.
  - reflexivity.
  - intros dim Hdim. assert (dim = 0%nat) as -> by lia. reflexivity.
Defined.

Lemma int32_lloyd_loop_stops_when_sums_agree_witness :
  lloyd_loop (H := int32_scalar) 1 100 zero_world line_data 2 100 0%Q
    [[3]; [0]] 0 =
    (Ret ([[3]; [0]], [1; 0; 0; 0]%nat), [AssignPass; UpdatePass; ConvergenceCheck]).
Proof.
  apply (int32_lloyd_loop_stops_when_sums_agree 1 4 99 zero_world line_data 2
           100 0%Q [[3]; [0]] 0 [1; 0; 0; 0]%nat [[3]; [0]]).
  - unfold Qle. simpl. lia.
  - lia.
  - reflexivity.
  - split; [lia|]. simpl. lia.
  - simpl. lia.
  - intros p Hp. apply coords_within_Forall; [lia|]. unfold line_data in Hp.
    repeat (apply elem_of_cons in Hp as [->|Hp]; [repeat constructor; lia|]).
    by apply not_elem_of_nil in Hp.
  - intros m Hm. apply coords_within_Forall; [lia|].
    repeat (apply elem_of_cons in Hm as [->|Hm]; [repeat constructor; lia|]).
    by apply not_elem_of_nil in Hm.
  - reflexivity.
  - reflexivity.
  - intros dim Hdim. assert (dim = 0%nat) as -> by lia. reflexivity.
Defined.

Lemma engine_seed_separates_explicit_seeds_witness :
  0 ≤ engine_seed 6 < 2 ^ 64 - 1 ∧ (engine_seed 6 = engine_seed (-7) ↔ 6 = -7).
Proof.
  apply (engine_seed_separates_explicit_seeds 6 (-7)); lia.
Defined.
